(** * versiontracker: version model and reconciliation (main.py)

    A shallow embedding of the pure core of [main.py]:
    [normalize_version], [compare_versions], the classification loop of
    [main_async], the sort that precedes it, and the semaphore that gates
    the concurrent lookups; then of what surrounds it: [find_app_folders]
    over a directory tree, [parse_info_plist] and [get_mdls_version] over
    what they read, the loop of [load_all_info_plists], the cell scan of
    [scrape_latest_version], and the address of the lookup.

    Python values are modelled as follows.
    - A [str] is a list of Unicode code points ([list N]).
    - [str.isdigit] on one character is the ASCII range '0'..'9' plus the
      interpreter's Unicode table for the other code points; that table
      is a section variable, so every result holds for any table.
    - [str.lower] (used only as a sort key) is a section variable too,
      and so is [str.isspace] outside ASCII.
    - [int] is unbounded ([N] for the non-negative release components);
      [int()] of a string raises [ValueError] when the string has more
      digits than the interpreter's limit allows; the limit,
      [sys.get_int_max_str_digits()], is a section variable: 4300 unless
      configured, 0 when it is off or the interpreter has none.
    - [packaging.version.parse] is modelled on the strings that
      [normalize_version] can return (see [parse]). *)

From Stdlib Require Import NArith Ascii String.
From stdpp Require Import base list sorting relations gmap.

Local Open Scope N_scope.

(** ** Python strings *)

Abbreviation char := N (only parsing).
Abbreviation pystr := (list N) (only parsing).

(** A string literal of the source, as code points. *)
Definition of_string (s : string) : pystr :=
  map N_of_ascii (list_ascii_of_string s).

(** The separator ['.'] *)
Definition dot : char := 46.

Definition is_dot (c : char) : bool := c =? dot.

Definition is_ascii_digit (c : char) : bool := (48 <=? c) && (c <=? 57).

(** [prefix.startswith]: [installed.startswith(latest)] is
    [startswith installed latest]. *)
Fixpoint startswith (s prefix : pystr) : bool :=
  match prefix, s with
  | [], _ => true
  | _ :: _, [] => false
  | p :: prefix', c :: s' => (c =? p) && startswith s' prefix'
  end.

(** [needle in haystack] on strings: some suffix of the haystack starts
    with the needle. *)
Fixpoint str_contains (haystack needle : pystr) : bool :=
  startswith haystack needle ||
  match haystack with
  | [] => false
  | _ :: rest => str_contains rest needle
  end.

(** [re.sub(r'\.+', '.', s)]: a left-to-right scan; [in_match] says that
    the scanner is inside a match of [\.+], whose replacement has already
    been emitted; the match is greedy, so it swallows every following
    dot. *)
Fixpoint sub_scan (in_match : bool) (s : pystr) : pystr :=
  match s with
  | [] => []
  | c :: rest =>
      if is_dot c
      then if in_match then sub_scan true rest else dot :: sub_scan true rest
      else c :: sub_scan false rest
  end.

Definition re_sub_dots (s : pystr) : pystr := sub_scan false s.

(** [s.strip('.')]: the left index moves right over dots, then the right
    index moves left over dots. *)
Fixpoint lstrip_dots (s : pystr) : pystr :=
  match s with
  | [] => []
  | c :: rest => if is_dot c then lstrip_dots rest else s
  end.

Fixpoint rstrip_dots (s : pystr) : pystr :=
  match s with
  | [] => []
  | c :: rest =>
      match rstrip_dots rest with
      | [] => if is_dot c then [] else [c]
      | kept => c :: kept
      end
  end.

Definition strip_dots (s : pystr) : pystr := rstrip_dots (lstrip_dots s).

(** Shape predicates on strings, used to describe normal forms. *)
Definition starts_with_dot (s : pystr) : bool :=
  match s with
  | c :: _ => is_dot c
  | [] => false
  end.

Fixpoint ends_with_dot (s : pystr) : bool :=
  match s with
  | [] => false
  | [c] => is_dot c
  | _ :: rest => ends_with_dot rest
  end.

Fixpoint has_dot_run (s : pystr) : bool :=
  match s with
  | c :: rest => (is_dot c && starts_with_dot rest) || has_dot_run rest
  | [] => false
  end.

(** ** The normalisation of the specification, step by step

    These follow the wording of the specification, not the code: they
    are what [normalize_version] is compared with. *)

(** "collapses consecutive separators into one": a separator that is
    followed by a separator is dropped. *)
Fixpoint collapse_separators (s : pystr) : pystr :=
  match s with
  | [] => []
  | c :: rest =>
      if is_dot c && starts_with_dot rest
      then collapse_separators rest
      else c :: collapse_separators rest
  end.

(** "trims leading and trailing separators" *)
Definition trim_separators (s : pystr) : pystr :=
  reverse (lstrip_dots (reverse (lstrip_dots s))).

(** ** Exceptions

    A call returns a value or raises.  The exceptions are those the code
    can meet between the sort and the update list. *)
Inductive exception : Type :=
  | InvalidVersion          (* packaging: the string is not a version *)
  | ValueError_int_digits   (* int(): more digits than the limit allows *)
  | ValueError_unpack       (* unpacking a list of the wrong length *)
  | IndexError.             (* x[0] on an empty list *)

Inductive result (A : Type) : Type :=
  | Returns (a : A)
  | Raises (e : exception).

Arguments Returns {A} a.
Arguments Raises {A} e.

#[export] Instance exception_eq_dec : EqDecision exception.
Proof. solve_decision. Defined.

#[export] Instance result_eq_dec {A} `{EqDecision A} : EqDecision (result A).
Proof. solve_decision. Defined.

(** An exception ends the computation it is raised in. *)
#[export] Instance result_bind : MBind result :=
  fun A B f m =>
    match m with
    | Returns a => f a
    | Raises e => Raises e
    end.

Section Version.

(** [c.isdigit()] outside ASCII: the interpreter's Unicode table. *)
Variable isdigit_nonascii : char -> bool.

(** [sys.get_int_max_str_digits()]: 0 when there is no limit, else at
    least 640 (4300 unless configured). *)
Variable max_str_digits : nat.

Definition isdigit (c : char) : bool :=
  if c <? 128 then is_ascii_digit c else isdigit_nonascii c.

(** ** normalize_version (main.py, lines 92-108) *)

Definition normalize_version (version_string : pystr) : pystr :=
  let normalized_version :=
    map (fun c => if isdigit c || is_dot c then c else dot) version_string in
  let normalized_version := re_sub_dots normalized_version in
  let normalized_version := strip_dots normalized_version in
  normalized_version.

(** "replaces every character that is not a digit or a separator with a
    separator" *)
Definition replace_non_version_chars (s : pystr) : pystr :=
  map (fun c => if negb (isdigit c) && negb (is_dot c) then dot else c) s.

Definition normalize_spec (s : pystr) : pystr :=
  trim_separators (collapse_separators (replace_non_version_chars s)).

(** A string is in normal form when it has only digits and dots, no run of
    dots, and no dot at either end. *)
Definition version_char (c : char) : bool := isdigit c || is_dot c.

Definition normal_form (s : pystr) : bool :=
  forallb version_char s && negb (has_dot_run s) &&
  negb (starts_with_dot s) && negb (ends_with_dot s).

(** ** compare_versions (main.py, lines 110-132) *)

(** The four strings [compare_versions] returns. *)
Inductive outcome : Type :=
  | update_available
  | up_to_date
  | versions_equal
  | unknown.

(** [packaging.version.Version]: for the strings [normalize_version]
    returns only the release segment varies; the epoch is 0 and there is
    no pre, post, dev or local part. *)
Record Version : Type := { release : list N }.

(** [version.split(".")] *)
Fixpoint split_dots (s : pystr) : list pystr :=
  match s with
  | [] => [[]]
  | c :: rest =>
      if is_dot c then [] :: split_dots rest
      else match split_dots rest with
           | part :: parts => (c :: part) :: parts
           | [] => [[c]]
           end
  end.

(** The value of [int(part)] for a run of ASCII digits, when the call
    returns; when it raises instead is [int_exceeds_limit] below, which
    [parse] asks before it uses any value. *)
Definition int_of_digits (part : pystr) : N :=
  fold_left (fun acc c => 10 * acc + (c - 48)) part 0.

(** One component of the release segment, [[0-9]+]. *)
Definition release_component (part : pystr) : option N :=
  match part with
  | [] => None
  | _ :: _ =>
      if forallb is_ascii_digit part then Some (int_of_digits part) else None
  end.

(** [int(part)] raises [ValueError] for a string of more than 640
    digits when a limit is set and the string has more digits than it;
    leading zeros count. *)
Definition int_exceeds_limit (digits : nat) : bool :=
  (640 <? digits)%nat && (0 <? max_str_digits)%nat && (max_str_digits <? digits)%nat.

(** [version.parse] on a string of [isdigit] characters and dots: the
    PEP 440 pattern then matches exactly the dotted runs of ASCII digits
    [[0-9]+(\.[0-9]+)*], and a string it does not match raises
    [InvalidVersion]; on a match every component goes through [int()],
    whose [ValueError] is passed on to the caller. *)
Definition parse (version : pystr) : result Version :=
  match mapM release_component (split_dots version) with
  | None => Raises InvalidVersion
  | Some components =>
      if existsb (fun part => int_exceeds_limit (length part)) (split_dots version)
      then Raises ValueError_int_digits
      else Returns {| release := components |}
  end.

(** The comparison key: the release without its trailing zeros (the
    other slots of the key are the same for all these versions). *)
Fixpoint strip_trailing_zeros (release : list N) : list N :=
  match release with
  | [] => []
  | n :: rest =>
      match strip_trailing_zeros rest with
      | [] => if n =? 0 then [] else [n]
      | kept => n :: kept
      end
  end.

Definition _key (v : Version) : list N := strip_trailing_zeros (release v).

(** Python's [<] and [>] on tuples of integers: the first differing
    position decides, else the lengths. *)
Fixpoint tuple_lt (a b : list N) : bool :=
  match a, b with
  | [], [] => false
  | [], _ :: _ => true
  | _ :: _, [] => false
  | x :: a', y :: b' => if x =? y then tuple_lt a' b' else x <? y
  end.

Fixpoint tuple_gt (a b : list N) : bool :=
  match a, b with
  | [], [] => false
  | [], _ :: _ => false
  | _ :: _, [] => true
  | x :: a', y :: b' => if x =? y then tuple_gt a' b' else y <? x
  end.

Definition Version_lt (v w : Version) : bool := tuple_lt (_key v) (_key w).
Definition Version_gt (v w : Version) : bool := tuple_gt (_key v) (_key w).

(** The [try] block parses the installed version, then the latest one;
    only [InvalidVersion] is caught. *)
Definition compare_versions (installed_version latest_version : pystr)
    : result outcome :=
  match parse (normalize_version installed_version) with
  | Raises InvalidVersion => Returns unknown
  | Raises e => Raises e
  | Returns installed_version_obj =>
      match parse (normalize_version latest_version) with
      | Raises InvalidVersion => Returns unknown
      | Raises e => Raises e
      | Returns latest_version_obj =>
          Returns
            (if Version_lt installed_version_obj latest_version_obj
             then update_available
             else if Version_gt installed_version_obj latest_version_obj
             then up_to_date
             else versions_equal)
      end
  end.

(** A string whose normal form the version pattern matches: it has a
    digit, and each of its digits is one of '0'..'9'. *)
Definition release_like (s : pystr) : Prop :=
  Exists (fun c => isdigit c = true) s /\
  Forall (fun c => isdigit c = true -> is_ascii_digit c = true) s.

(** Some component of the normalised string has more digits than
    [int()] accepts. *)
Definition oversized (s : pystr) : bool :=
  existsb (fun part => int_exceeds_limit (length part))
    (split_dots (normalize_version s)).

(** ** The classification loop of main_async (lines 368-390) *)

(** An application entry is a Python list of strings:
    [[executable, identifier, installed_version]], to which the lookup
    appends the latest version. *)

(** The path one iteration of the loop takes. *)
Inductive decision : Type :=
  | skip_short        (* len(app_entry) < 4 *)
  | skip_incomplete   (* an empty installed or latest version *)
  | skip_prefilter    (* latest in installed or installed.startswith(latest) *)
  | compared (comparison_result : outcome).

Definition is_empty (s : pystr) : bool :=
  match s with
  | [] => true
  | _ :: _ => false
  end.

(** Unpacking more than four fields raises, and so does a comparison
    that raises. *)
Definition classify (app_entry : list pystr) : result decision :=
  if (length app_entry <? 4)%nat then Returns skip_short
  else
    match app_entry with
    | [app_name; bundle_identifier; installed_version; latest_version] =>
        if is_empty installed_version || is_empty latest_version
        then Returns skip_incomplete
        else if str_contains installed_version latest_version
                || startswith installed_version latest_version
        then Returns skip_prefilter
        else
          comparison_result ← compare_versions installed_version latest_version;
          Returns (compared comparison_result)
    | _ => Raises ValueError_unpack
    end.

Definition appends (d : decision) : bool :=
  match d with
  | compared update_available => true
  | _ => false
  end.

(** The loop: [updates] receives, in order, the entries whose comparison
    says [update_available]. *)
Fixpoint find_updates (app_data : list (list pystr)) : result (list (list pystr)) :=
  match app_data with
  | [] => Returns []
  | app_entry :: rest =>
      d ← classify app_entry;
      updates ← find_updates rest;
      Returns (if appends d then app_entry :: updates else updates)
  end.

End Version.

#[export] Instance outcome_eq_dec : EqDecision outcome.
Proof. solve_decision. Defined.

#[export] Instance decision_eq_dec : EqDecision decision.
Proof. solve_decision. Defined.

(** ** Zero-padded lexicographic comparison, as the specification words it *)

Definition zero_pad (n : nat) (t : list N) : list N :=
  t ++ replicate (n - length t)%nat 0.

Fixpoint lexicographic (a b : list N) : comparison :=
  match a, b with
  | [], [] => Eq
  | [], _ :: _ => Lt
  | _ :: _, [] => Gt
  | x :: a', y :: b' =>
      match x ?= y with
      | Eq => lexicographic a' b'
      | c => c
      end
  end.

Definition compare_padded (a b : list N) : comparison :=
  let n := max (length a) (length b) in
  lexicographic (zero_pad n a) (zero_pad n b).

(** Lexicographic comparison in which a missing component reads as 0:
    first an exhausted tuple against the rest of the other one. *)
Fixpoint exhausted_against (b : list N) : comparison :=
  match b with
  | [] => Eq
  | y :: b' => match 0 ?= y with Eq => exhausted_against b' | c => c end
  end.

Fixpoint lexicographic_zeros (a b : list N) : comparison :=
  match a, b with
  | [], _ => exhausted_against b
  | _ :: _, [] => CompOpp (exhausted_against a)
  | x :: a', y :: b' => match x ?= y with Eq => lexicographic_zeros a' b' | c => c end
  end.

Definition outcome_of (c : comparison) : outcome :=
  match c with
  | Lt => update_available
  | Gt => up_to_date
  | Eq => versions_equal
  end.

(** ** The pipeline of main_async (lines 353-390) *)

(** Python's [<=] on strings: lexicographic on code points. *)
Fixpoint str_le (a b : pystr) : bool :=
  match a, b with
  | [], _ => true
  | _ :: _, [] => false
  | x :: a', y :: b' => if x =? y then str_le a' b' else x <? y
  end.

(** One step of a stable sort on decorated entries: the new entry goes
    before the first entry whose key is not smaller. *)
Fixpoint insert_by_key {A} (kx : pystr * A) (l : list (pystr * A)) : list (pystr * A) :=
  match l with
  | [] => [kx]
  | ky :: rest =>
      if str_le kx.1 ky.1 then kx :: l else ky :: insert_by_key kx rest
  end.

Definition stable_sort {A} (l : list (pystr * A)) : list (pystr * A) :=
  foldr insert_by_key [] l.

(** The order of two decorated entries. *)
Definition key_le {A} (p q : pystr * A) : Prop := str_le p.1 q.1 = true.

(** [fetch_latest_version_for_app] (lines 209-243), given the string
    [scrape_latest_version] returned: the entry is unpacked into exactly
    three fields ([None] is the [ValueError] otherwise) and the latest
    version is appended to it. *)
Definition fetch_latest_version_for_app
    (app_entry : list pystr) (latest_version : pystr) : option (list pystr) :=
  match app_entry with
  | [bundle_executable; bundle_identifier; installed_version] =>
      Some (app_entry ++ [latest_version])
  | _ => None
  end.

(** [fetch_latest_versions] (lines 245-262): one task per entry, gathered;
    [scrape i] is what the lookup of the [i]-th task returned.  Each task
    touches only its own entry, so the outcome does not depend on the
    order in which the tasks complete. *)
Fixpoint fetch_latest_versions
    (app_data : list (list pystr)) (scrape : nat -> pystr) : option (list (list pystr)) :=
  match app_data with
  | [] => Some []
  | app_entry :: rest =>
      entry ← fetch_latest_version_for_app app_entry (scrape 0%nat);
      entries ← fetch_latest_versions rest (fun i => scrape (S i));
      Some (entry :: entries)
  end.

(** [str.lower] on ASCII strings: 'A'..'Z' move to 'a'..'z'. *)
Definition ascii_lower (s : pystr) : pystr :=
  map (fun c => if (65 <=? c) && (c <=? 90) then c + 32 else c) s.

Section Pipeline.

Variable isdigit_nonascii : char -> bool.
Variable max_str_digits : nat.

(** [str.lower], the interpreter's Unicode case mapping. *)
Variable lower : pystr -> pystr.

(** [key=lambda x: x[0].lower()]; [None] is the [IndexError] on an empty
    entry. *)
Definition sort_key (x : list pystr) : option pystr :=
  lower <$> x !! 0%nat.

(** [app_data.sort(key=...)]: every key is computed first, then the
    entries are sorted by key, stably. *)
Definition sort_by_name (app_data : list (list pystr)) : option (list (list pystr)) :=
  keyed ← mapM (fun x => k ← sort_key x; Some (k, x)) app_data;
  Some ((stable_sort keyed).*2).

(** The decorated list of [sort_by_name] restricted to one key. *)
Definition with_key (k : pystr) (app_data : list (list pystr)) : list (list pystr) :=
  filter (fun x => sort_key x = Some k) app_data.

(** [x] is not after [y] by display name, case-insensitively. *)
Definition name_le (x y : list pystr) : Prop :=
  exists kx ky, sort_key x = Some kx /\ sort_key y = Some ky /\ str_le kx ky = true.

(** The entries after the lookups: each with the answer of its task. *)
Definition with_latest (app_data : list (list pystr)) (scrape : nat -> pystr)
    : list (list pystr) :=
  imap (fun i app_entry => app_entry ++ [scrape i]) app_data.

(** From the sort to the update list: the entries with their latest
    version attached, and the updates among them. *)
Definition main_async (app_data : list (list pystr)) (scrape : nat -> pystr)
    : result (list (list pystr) * list (list pystr)) :=
  match sort_by_name app_data with
  | None => Raises IndexError
  | Some app_data =>
      match fetch_latest_versions app_data scrape with
      | None => Raises ValueError_unpack
      | Some app_data =>
          updates ← find_updates isdigit_nonascii max_str_digits app_data;
          Returns (app_data, updates)
      end
  end.

End Pipeline.

(** ** The admission gate (lines 29-30, 230-232, 358-362)

    [main_async] creates one [asyncio.Semaphore(SEM_LIMIT)] and hands it
    to every task; a task holds it exactly while it awaits
    [scrape_latest_version]. *)

Module Gate.

Local Open Scope nat_scope.

Definition SEM_LIMIT : nat := 20.

(** Where a task of [fetch_latest_version_for_app] stands. *)
Inductive task_state : Type :=
  | waiting     (* before [async with semaphore] *)
  | in_flight   (* inside it, awaiting the lookup *)
  | settled.    (* after it *)

#[export] Instance task_state_eq_dec : EqDecision task_state.
Proof. solve_decision. Defined.

(** The semaphore's counter, shared, and the tasks created by
    [fetch_latest_versions]. *)
Record state : Type := { sem_value : nat; tasks : list task_state }.

Inductive event : Type :=
  | Acquire (i : nat)   (* task [i] enters [async with semaphore] *)
  | Release (i : nat).  (* task [i] leaves it *)

(** A semaphore with a counter of 0 admits nobody: the acquiring task
    stays suspended, which here is "no step" ([None]). *)
Definition step (st : state) (e : event) : option state :=
  match e with
  | Acquire i =>
      match tasks st !! i with
      | Some waiting =>
          match sem_value st with
          | 0 => None
          | S value => Some {| sem_value := value;
                               tasks := <[i := in_flight]> (tasks st) |}
          end
      | _ => None
      end
  | Release i =>
      match tasks st !! i with
      | Some in_flight => Some {| sem_value := S (sem_value st);
                                  tasks := <[i := settled]> (tasks st) |}
      | _ => None
      end
  end.

Fixpoint run (st : state) (schedule : list event) : option state :=
  match schedule with
  | [] => Some st
  | e :: rest => st' ← step st e; run st' rest
  end.

(** The state in which [fetch_latest_versions] starts: a fresh semaphore
    and one waiting task per entry. *)
Definition init (limit : nat) (app_data : list (list pystr)) : state :=
  {| sem_value := limit; tasks := replicate (length app_data) waiting |}.

(** [semaphore = asyncio.Semaphore(SEM_LIMIT)] (line 359) *)
Definition main_async_gate (app_data : list (list pystr)) : state :=
  init SEM_LIMIT app_data.

Definition count_in_flight (ts : list task_state) : nat :=
  length (filter (fun t => t = in_flight) ts).

(** What one task contributes to that count. *)
Definition in_flight_bit (t : task_state) : nat :=
  if decide (t = in_flight) then 1 else 0.

End Gate.

#[export] Instance gate_event_eq_dec : EqDecision Gate.event.
Proof. solve_decision. Defined.

(** The order in which a task passes through its states. *)
Definition task_rank (t : Gate.task_state) : nat :=
  match t with
  | Gate.waiting => 0%nat
  | Gate.in_flight => 1%nat
  | Gate.settled => 2%nat
  end.

(** The schedule in which the tasks do their lookups one after the
    other. *)
Definition serial_schedule (first n : nat) : list Gate.event :=
  flat_map (fun i => [Gate.Acquire i; Gate.Release i]) (seq first n).

(** A descriptor for the examples. *)
Definition foo_plist : gmap (list N) (list N) :=
  list_to_map
    [(of_string "CFBundleExecutable", of_string "Foo");
     (of_string "CFBundleIdentifier", of_string "com.foo");
     (of_string "CFBundleVersion", of_string "4567");
     (of_string "CFBundleShortVersionString", of_string "12.3")].

(** ** More of Python's strings, used outside the version model *)

(** [s.endswith(suffix)] *)
Definition endswith (s suffix : pystr) : bool :=
  startswith (reverse s) (reverse suffix).

(** [s.strip()] without argument removes whitespace at both ends; here
    for any class [p] of characters. *)
Fixpoint lstrip_by (p : char -> bool) (s : pystr) : pystr :=
  match s with
  | [] => []
  | c :: rest => if p c then lstrip_by p rest else s
  end.

Fixpoint rstrip_by (p : char -> bool) (s : pystr) : pystr :=
  match s with
  | [] => []
  | c :: rest =>
      match rstrip_by p rest with
      | [] => if p c then [] else [c]
      | kept => c :: kept
      end
  end.

Definition strip_by (p : char -> bool) (s : pystr) : pystr :=
  rstrip_by p (lstrip_by p s).

(** The ASCII characters for which [str.isspace] holds: tab to carriage
    return, the four separators 0x1c-0x1f, and the space. *)
Definition is_ascii_space (c : char) : bool :=
  ((9 <=? c) && (c <=? 13)) || ((28 <=? c) && (c <=? 32)).

(** [s.replace(old, new)]: a left-to-right scan for non-overlapping
    occurrences; [skip] counts the characters of the occurrence just
    replaced that are still to be passed over.  With an empty [old],
    Python puts [new] before every character and at the end. *)
Fixpoint replace_scan (old new : pystr) (skip : nat) (s : pystr) : pystr :=
  match s with
  | [] => match old with [] => new | _ :: _ => [] end
  | c :: rest =>
      match skip with
      | S k => replace_scan old new k rest
      | O =>
          if startswith s old
          then new ++ match old with
                      | [] => c :: replace_scan old new 0 rest
                      | _ :: _ => replace_scan old new (length old - 1) rest
                      end
          else c :: replace_scan old new 0 rest
      end
  end.

Definition str_replace (s old new : pystr) : pystr := replace_scan old new 0 s.

(** [os.path.join(a, b)] of [posixpath] *)
Definition slash : char := 47.

Definition path_join (a b : pystr) : pystr :=
  if startswith b [slash] then b
  else if is_empty a || endswith a [slash] then a ++ b
  else a ++ slash :: b.

(** ** find_app_folders (main.py, lines 67-90) *)

(** What [os.scandir] yields: an entry that is a directory
    ([entry.is_dir(follow_symlinks=False)]) carries what scanning it would
    give, [None] when that raises [PermissionError]; any other entry
    (file, symbolic link) has only a name. *)
Inductive dir_entry : Type :=
  | Other (name : pystr)
  | Directory (name : pystr) (listing : option (list dir_entry)).

Definition dot_app : pystr := of_string ".app".

(** The body of the loop for one entry of [root_dir]; the recursive call
    scans the sub-directory under its joined path and returns nothing
    when it cannot be read. *)
Fixpoint find_in_entry (root_dir : pystr) (entry : dir_entry) : list pystr :=
  match entry with
  | Other _ => []
  | Directory name listing =>
      if endswith name dot_app then [path_join root_dir name]
      else
        match listing with
        | None => []
        | Some entries =>
            (fix scan (l : list dir_entry) : list pystr :=
               match l with
               | [] => []
               | e :: l' => find_in_entry (path_join root_dir name) e ++ scan l'
               end) entries
        end
  end.

Definition find_app_folders (root_dir : pystr) (listing : option (list dir_entry))
    : list pystr :=
  match listing with
  | None => []
  | Some entries => flat_map (find_in_entry root_dir) entries
  end.

(** The names on the way from the root to a path. *)
Definition join_all (root_dir : pystr) (names : list pystr) : pystr :=
  foldl path_join root_dir names.

(** A listing of [/Applications] for the examples: a bundle inside a
    folder, with a bundle nested in it, a bundle at the top, a folder
    that cannot be read, and a file named like a bundle. *)
Definition applications_listing : list dir_entry :=
  [Directory (of_string "Utilities")
     (Some [Directory (of_string "Terminal.app")
              (Some [Directory (of_string "Inner.app") None]);
            Other (of_string "readme")]);
   Directory (of_string "Safari.app") (Some []);
   Directory (of_string "Locked") None;
   Other (of_string "x.app")].

(** ** parse_info_plist (main.py, lines 43-65) *)

(** The dictionary [plistlib.load] returns, with string values; [None]
    is a missing or invalid file. *)
Definition plist_get (plist_data : gmap (list N) (list N)) (key : string) : pystr :=
  default [] (plist_data !! of_string key).

Definition parse_info_plist (plist : option (gmap (list N) (list N)))
    : pystr * pystr * pystr * pystr :=
  match plist with
  | Some plist_data =>
      (plist_get plist_data "CFBundleExecutable",
       plist_get plist_data "CFBundleIdentifier",
       plist_get plist_data "CFBundleVersion",
       plist_get plist_data "CFBundleShortVersionString")
  | None => ([], [], [], [])
  end.

(** ** fetch_latest_version_for_app: the lookup address (lines 224-228) *)

Definition macupdater_url
    (identifier_mappings : gmap (list N) (list N)) (bundle_identifier : pystr) : pystr :=
  let corrected_bundle_identifier :=
    default bundle_identifier (identifier_mappings !! bundle_identifier) in
  of_string "https://macupdater.net/app_updates/appinfo/"
  ++ corrected_bundle_identifier ++ of_string "/index.html".

Section Whitespace.

(** [c.isspace()] outside ASCII: the interpreter's Unicode table. *)
Variable isspace_nonascii : char -> bool.

Definition isspace (c : char) : bool :=
  if c <? 128 then is_ascii_space c else isspace_nonascii c.

Definition strip (s : pystr) : pystr := strip_by isspace s.

(** ** get_mdls_version (main.py, lines 134-153) *)

Definition quote : char := 34.

(** What the line of [mdls] starts with, up to and with the opening
    quotation mark. *)
Definition mdls_label : pystr := of_string "kMDItemVersion = " ++ [quote].

(** [mdls_output] is the decoded output of the command, [None] when the
    command fails ([CalledProcessError]). *)
Definition get_mdls_version (mdls_output : option pystr) : pystr :=
  match mdls_output with
  | Some text =>
      let version_str := str_replace (str_replace (strip text) mdls_label []) [quote] [] in
      version_str
  | None => []
  end.

(** ** scrape_latest_version (main.py, lines 182-207) *)

(** What the request gives: an exception of the client or a timeout, or
    a response with its status and, of its body, the [td] cells in
    document order, each with its text and the text of the next [td]
    among its siblings, if there is one. *)
Inductive response : Type :=
  | request_failed
  | http_response (status : N) (cells : list (pystr * option pystr)).

(** The loop over [soup.find_all("td")]. *)
Fixpoint scan_cells (label : pystr) (cells : list (pystr * option pystr)) : pystr :=
  match cells with
  | [] => []
  | (text, next_td) :: rest =>
      if bool_decide (strip text = label)
      then match next_td with
           | Some next_text => strip next_text
           | None => scan_cells label rest
           end
      else scan_cells label rest
  end.

(** [raise_for_status] raises for a status of 400 or more. *)
Definition scrape_latest_version (r : response) (label : pystr) : pystr :=
  match r with
  | request_failed => []
  | http_response status cells =>
      if 400 <=? status then [] else scan_cells label cells
  end.

(** ** load_all_info_plists (main.py, lines 264-312) *)

(** One completed future: the version of the metadata query and the four
    fields of the bundle descriptor give an entry, or nothing when the
    application is skipped. *)
Definition load_entry
    (ignore_app_names : list pystr) (app_name_mappings : gmap (list N) (list N))
    (mdls_version : pystr) (plist : option (gmap (list N) (list N)))
    : option (pystr * pystr * pystr) :=
  let '(bundle_executable, bundle_identifier, bundle_version, bundle_short_version) :=
    parse_info_plist plist in
  if is_empty bundle_executable || is_empty bundle_identifier then None
  else if bool_decide (bundle_executable ∈ ignore_app_names) then None
  else
    let bundle_executable :=
      default bundle_executable (app_name_mappings !! bundle_executable) in
    let build_version :=
      if negb (is_empty bundle_version)
         && negb (bool_decide (bundle_version = mdls_version))
      then bundle_version
      else if negb (is_empty bundle_short_version)
              && negb (bool_decide (bundle_short_version = mdls_version))
      then bundle_short_version
      else [] in
    let installed_version :=
      if is_empty build_version then mdls_version
      else mdls_version ++ of_string " (" ++ build_version ++ of_string ")" in
    Some (bundle_executable, bundle_identifier, installed_version).

(** The state of the loop: the module's [installed_versions] dictionary
    and the list [app_data]. *)
Definition load_step
    (ignore_app_names : list pystr) (app_name_mappings : gmap (list N) (list N))
    (st : gmap (list N) (list N) * list (list pystr))
    (completed : option pystr * option (gmap (list N) (list N)))
    : gmap (list N) (list N) * list (list pystr) :=
  match load_entry ignore_app_names app_name_mappings
          (get_mdls_version completed.1) completed.2 with
  | None => st
  | Some (bundle_executable, bundle_identifier, installed_version) =>
      (<[bundle_identifier := installed_version]> st.1,
       st.2 ++ [[bundle_executable; bundle_identifier; installed_version]])
  end.

(** [completed] lists, in the order in which the futures complete, the
    output of the metadata query and the descriptor of each folder. *)
Definition load_all_info_plists
    (completed : list (option pystr * option (gmap (list N) (list N))))
    (ignore_app_names : list pystr) (app_name_mappings : gmap (list N) (list N))
    (installed_versions : gmap (list N) (list N))
    : gmap (list N) (list N) * list (list pystr) :=
  foldl (load_step ignore_app_names app_name_mappings) (installed_versions, []) completed.

End Whitespace.

(** ** Facts about the string operations *)

Lemma is_dot_true c : is_dot c = true -> c = dot.
Proof. unfold is_dot. by intros ?%N.eqb_eq. Qed.

Lemma is_dot_dot : is_dot dot = true.
Proof. reflexivity. Qed.

Lemma sub_scan_true_lstrip s : sub_scan true s = sub_scan false (lstrip_dots s).
Proof.
  induction s as [|c s IH]; [done|].
  simpl. destruct (is_dot c) eqn:Hc; [done|].
  simpl. by rewrite Hc.
Qed.

Lemma collapse_dot_cons s :
  collapse_separators (dot :: s) = dot :: collapse_separators (lstrip_dots s).
Proof.
  induction s as [|c s IH]; [done|].
  change (collapse_separators (dot :: c :: s))
    with (if is_dot dot && is_dot c then collapse_separators (c :: s)
          else dot :: collapse_separators (c :: s)).
  simpl lstrip_dots. destruct (is_dot c) eqn:Hc; simpl andb; cbv iota.
  - apply is_dot_true in Hc as ->. exact IH.
  - done.
Qed.

Lemma sub_scan_collapse s :
  sub_scan false s = collapse_separators s /\
  sub_scan false (lstrip_dots s) = collapse_separators (lstrip_dots s).
Proof.
  induction s as [|c s [IH1 IH2]]; [done|].
  assert (H1 : sub_scan false (c :: s) = collapse_separators (c :: s)).
  { destruct (is_dot c) eqn:Hc.
    - pose proof (is_dot_true _ Hc) as ->.
      rewrite collapse_dot_cons. simpl. f_equal.
      by rewrite sub_scan_true_lstrip.
    - simpl. rewrite Hc. simpl. by f_equal. }
  split; [exact H1|].
  simpl lstrip_dots. by destruct (is_dot c).
Qed.

Lemma re_sub_dots_collapse s : re_sub_dots s = collapse_separators s.
Proof. apply sub_scan_collapse. Qed.

Lemma starts_with_dot_collapse s :
  starts_with_dot (collapse_separators s) = starts_with_dot s.
Proof.
  induction s as [|c s IH]; [done|].
  simpl. destruct (is_dot c) eqn:Hc, (starts_with_dot s) eqn:Hs; simpl; congruence.
Qed.

Lemma has_dot_run_collapse s : has_dot_run (collapse_separators s) = false.
Proof.
  induction s as [|c s IH]; [done|].
  simpl. destruct (is_dot c && starts_with_dot s) eqn:Hcs; [done|].
  simpl. by rewrite starts_with_dot_collapse, Hcs, IH.
Qed.

Lemma collapse_no_run s : has_dot_run s = false -> collapse_separators s = s.
Proof.
  induction s as [|c s IH]; [done|].
  simpl. intros [Hc Hs]%orb_false_elim. rewrite Hc. f_equal. by apply IH.
Qed.

Lemma forallb_collapse (P : char -> bool) s :
  forallb P s = true -> forallb P (collapse_separators s) = true.
Proof.
  induction s as [|c s IH]; [done|].
  simpl. intros [Hc Hs]%andb_true_iff.
  destruct (is_dot c && starts_with_dot s); simpl; [by apply IH|].
  by rewrite Hc, IH.
Qed.

Lemma lstrip_dots_start s : starts_with_dot (lstrip_dots s) = false.
Proof.
  induction s as [|c s IH]; [done|].
  simpl. by destruct (is_dot c) eqn:Hc.
Qed.

Lemma lstrip_dots_id s : starts_with_dot s = false -> lstrip_dots s = s.
Proof. destruct s as [|c s]; [done|]. simpl. by intros ->. Qed.

Lemma forallb_lstrip (P : char -> bool) s :
  forallb P s = true -> forallb P (lstrip_dots s) = true.
Proof.
  induction s as [|c s IH]; [done|].
  intros H. simpl. destruct (is_dot c); [|done].
  apply IH. simpl in H. by apply andb_true_iff in H as [_ ?].
Qed.

Lemma has_dot_run_lstrip s :
  has_dot_run s = false -> has_dot_run (lstrip_dots s) = false.
Proof.
  induction s as [|c s IH]; [done|].
  intros H. simpl. destruct (is_dot c); [|done].
  apply IH. simpl in H. by apply orb_false_elim in H as [_ ?].
Qed.

Lemma rstrip_dots_snoc s c :
  rstrip_dots (s ++ [c]) = if is_dot c then rstrip_dots s else s ++ [c].
Proof.
  induction s as [|a s IH]; [done|].
  simpl. rewrite IH. destruct (is_dot c); [done|].
  by destruct s.
Qed.

Lemma rstrip_dots_reverse s :
  rstrip_dots s = reverse (lstrip_dots (reverse s)).
Proof.
  induction s as [|c s IH] using rev_ind; [done|].
  rewrite rstrip_dots_snoc, reverse_snoc. simpl.
  destruct (is_dot c); [done|].
  by rewrite reverse_cons, reverse_involutive.
Qed.

Lemma strip_dots_trim s : strip_dots s = trim_separators s.
Proof. unfold strip_dots, trim_separators. apply rstrip_dots_reverse. Qed.

Lemma rstrip_dots_end s : ends_with_dot (rstrip_dots s) = false.
Proof.
  induction s as [|c s IH]; [done|].
  simpl. destruct (rstrip_dots s) as [|d kept] eqn:Hr.
  - by destruct (is_dot c) eqn:Hc; simpl; rewrite ?Hc.
  - exact IH.
Qed.

Lemma rstrip_dots_id s : ends_with_dot s = false -> rstrip_dots s = s.
Proof.
  induction s as [|c s IH]; [done|].
  destruct s as [|d s].
  - simpl. by intros ->.
  - intros H. change (ends_with_dot (c :: d :: s)) with (ends_with_dot (d :: s)) in H.
    change (rstrip_dots (c :: d :: s))
      with (match rstrip_dots (d :: s) with
            | [] => if is_dot c then [] else [c]
            | kept => c :: kept
            end).
    by rewrite (IH H).
Qed.

Lemma forallb_rstrip (P : char -> bool) s :
  forallb P s = true -> forallb P (rstrip_dots s) = true.
Proof.
  induction s as [|c s IH]; [done|].
  simpl. intros [Hc Hs]%andb_true_iff. specialize (IH Hs).
  destruct (rstrip_dots s) as [|d kept].
  - destruct (is_dot c); simpl; [done|]. by rewrite Hc.
  - simpl in *. by rewrite Hc, IH.
Qed.

Lemma starts_with_dot_rstrip s :
  starts_with_dot s = false -> starts_with_dot (rstrip_dots s) = false.
Proof.
  destruct s as [|c s]; [done|].
  simpl. intros Hc. rewrite Hc. by destruct (rstrip_dots s); simpl.
Qed.

Lemma has_dot_run_rstrip s :
  has_dot_run s = false -> has_dot_run (rstrip_dots s) = false.
Proof.
  induction s as [|c s IH]; [done|].
  simpl. intros [Hc Hs]%orb_false_elim. specialize (IH Hs).
  destruct (rstrip_dots s) as [|d kept] eqn:Hr.
  - destruct (is_dot c); simpl; [done|]. by rewrite andb_false_r.
  - simpl in *. rewrite IH, orb_false_r.
    destruct (is_dot c); [|done]. simpl in *.
    destruct s as [|e s]; [done|].
    simpl in Hr, Hc.
    destruct (rstrip_dots s); [destruct (is_dot e) eqn:He|]; by simplify_eq.
Qed.

Section NormalizeFacts.

Variable isdigit_nonascii : char -> bool.

Local Abbreviation isdigit := (isdigit isdigit_nonascii).
Local Abbreviation version_char := (version_char isdigit_nonascii).
Local Abbreviation normalize_version := (normalize_version isdigit_nonascii).
Local Abbreviation normalize_spec := (normalize_spec isdigit_nonascii).
Local Abbreviation normal_form := (normal_form isdigit_nonascii).

Lemma replace_step_agrees s :
  map (fun c => if isdigit c || is_dot c then c else dot) s
  = replace_non_version_chars isdigit_nonascii s.
Proof.
  unfold replace_non_version_chars. apply map_ext. intros c.
  by destruct (isdigit c), (is_dot c).
Qed.

Lemma replace_step_chars s :
  forallb version_char (replace_non_version_chars isdigit_nonascii s) = true.
Proof.
  induction s as [|c s IH]; [done|].
  simpl. rewrite IH, andb_true_r. unfold version_char.
  by destruct (isdigit c) eqn:Hd, (is_dot c) eqn:Hc; simpl; rewrite ?Hd, ?Hc.
Qed.

Lemma replace_step_id s :
  forallb version_char s = true -> replace_non_version_chars isdigit_nonascii s = s.
Proof.
  induction s as [|c s IH]; [done|].
  simpl. intros [Hc Hs]%andb_true_iff. rewrite (IH Hs). f_equal.
  unfold version_char in Hc. by destruct (isdigit c), (is_dot c).
Qed.

Lemma normalize_version_unfold s :
  normalize_version s
  = strip_dots (collapse_separators (replace_non_version_chars isdigit_nonascii s)).
Proof.
  unfold normalize_version. by rewrite replace_step_agrees, re_sub_dots_collapse.
Qed.

Lemma normalize_version_normal_form s : normal_form (normalize_version s) = true.
Proof.
  rewrite normalize_version_unfold. unfold normal_form, strip_dots.
  set (t := collapse_separators (replace_non_version_chars isdigit_nonascii s)).
  assert (Ht1 : forallb version_char t = true)
    by apply forallb_collapse, replace_step_chars.
  assert (Ht2 : has_dot_run t = false) by apply has_dot_run_collapse.
  rewrite forallb_rstrip by by apply forallb_lstrip.
  rewrite has_dot_run_rstrip by by apply has_dot_run_lstrip.
  rewrite starts_with_dot_rstrip by apply lstrip_dots_start.
  by rewrite rstrip_dots_end.
Qed.

Lemma normalize_version_fixes s : normal_form s = true -> normalize_version s = s.
Proof.
  unfold normal_form.
  intros [[[H1 H2]%andb_true_iff H3]%andb_true_iff H4]%andb_true_iff.
  apply negb_true_iff in H2, H3, H4.
  rewrite normalize_version_unfold, replace_step_id, collapse_no_run by done.
  unfold strip_dots. by rewrite lstrip_dots_id, rstrip_dots_id.
Qed.

(** C5: [normalize_version] is the three steps of the specification in
    order, on every string: non-version characters become separators,
    runs of separators are collapsed, separators at both ends are
    trimmed.  It is a total function (no input makes it fail) and the
    empty string normalizes to the empty string. *)
Theorem normalize_version_refines_spec :
  (forall s : pystr, normalize_version s = normalize_spec s) /\
  normalize_version [] = [].
Proof.
  split; [|done].
  intros s. rewrite normalize_version_unfold. apply strip_dots_trim.
Qed.

(** C6: [normalize_version] is idempotent. *)
Theorem normalize_version_idempotent (a : pystr) :
  normalize_version (normalize_version a) = normalize_version a.
Proof. apply normalize_version_fixes, normalize_version_normal_form. Qed.

End NormalizeFacts.

(** ** Facts about tuple comparison *)

(** Decides every [u ?= v] of the goal from the hypotheses. *)
Ltac settle_compare :=
  repeat match goal with
  | |- context [?u ?= ?v] =>
      first [ rewrite (proj2 (N.compare_eq_iff u v)) by lia
            | rewrite (proj2 (N.compare_lt_iff u v)) by lia
            | rewrite (proj2 (N.compare_gt_iff u v)) by lia ]
  end.

Lemma tuple_gt_lt a b : tuple_gt a b = tuple_lt b a.
Proof.
  revert b. induction a as [|x a IH]; intros [|y b]; try done.
  simpl. rewrite (N.eqb_sym y x). by rewrite IH.
Qed.

Lemma tuple_lt_asym a b : tuple_lt a b = true -> tuple_lt b a = false.
Proof.
  revert b. induction a as [|x a IH]; intros [|y b]; try done.
  simpl. rewrite (N.eqb_sym y x). destruct (x =? y) eqn:Hxy; [by apply IH|].
  intros ?%N.ltb_lt. apply N.ltb_ge. lia.
Qed.

Lemma tuple_lt_lexicographic a b :
  tuple_lt a b = true <-> lexicographic a b = Lt.
Proof.
  revert b. induction a as [|x a IH]; intros [|y b]; try done.
  simpl. destruct (N.compare_spec x y) as [->|Hlt|Hgt].
  - rewrite N.eqb_refl. apply IH.
  - rewrite (proj2 (N.eqb_neq x y)) by lia. by rewrite (proj2 (N.ltb_lt x y)).
  - rewrite (proj2 (N.eqb_neq x y)) by lia. by rewrite (proj2 (N.ltb_ge x y)) by lia.
Qed.

Lemma lexicographic_swap a b : lexicographic b a = CompOpp (lexicographic a b).
Proof.
  revert b. induction a as [|x a IH]; intros [|y b]; try done.
  simpl. rewrite (N.compare_antisym x y).
  destruct (x ?= y); simpl; [apply IH|done..].
Qed.

Lemma lexicographic_refl a : lexicographic a a = Eq.
Proof. induction a as [|x a IH]; [done|]. simpl. by rewrite N.compare_refl. Qed.

(** The three-way branch of [compare_versions] on two keys. *)
Lemma three_way_lexicographic a b :
  (if tuple_lt a b then update_available
   else if tuple_gt a b then up_to_date else versions_equal)
  = outcome_of (lexicographic a b).
Proof.
  rewrite tuple_gt_lt.
  pose proof (tuple_lt_lexicographic a b) as Hab.
  pose proof (tuple_lt_lexicographic b a) as Hba.
  rewrite (lexicographic_swap a b) in Hba.
  destruct (lexicographic a b), (tuple_lt a b), (tuple_lt b a); simpl in *;
    try done; intuition discriminate.
Qed.

Lemma exhausted_against_strip b :
  exhausted_against b = lexicographic [] (strip_trailing_zeros b).
Proof.
  induction b as [|y b IH]; [done|].
  simpl. destruct (N.eqb_spec y 0) as [->|Hy].
  - simpl. rewrite IH. by destruct (strip_trailing_zeros b).
  - destruct y as [|p]; [done|].
    by destruct (strip_trailing_zeros b).
Qed.

Lemma lexicographic_nil_r a : lexicographic a [] = CompOpp (lexicographic [] a).
Proof. by destruct a. Qed.

Lemma lexicographic_strip a b :
  lexicographic (strip_trailing_zeros a) (strip_trailing_zeros b)
  = lexicographic_zeros a b.
Proof.
  revert b. induction a as [|x a IH]; intros b.
  - simpl. by rewrite exhausted_against_strip.
  - destruct b as [|y b].
    + change (lexicographic_zeros (x :: a) []) with (CompOpp (exhausted_against (x :: a))).
      by rewrite exhausted_against_strip, <- lexicographic_nil_r.
    + simpl. rewrite <- IH.
      destruct (strip_trailing_zeros a) as [|x' ka], (strip_trailing_zeros b) as [|y' kb];
        destruct (N.compare_spec x y) as [Hxy|Hxy|Hxy];
        destruct (N.eqb_spec x 0) as [Hx|Hx], (N.eqb_spec y 0) as [Hy|Hy];
        try lia; simpl; rewrite ?Hx, ?Hy; by settle_compare.
Qed.

Lemma lexicographic_replicate i j :
  lexicographic (replicate i 0) (replicate j 0) = Nat.compare i j.
Proof.
  revert j. induction i as [|i IH]; intros [|j]; try done. simpl. apply IH.
Qed.

Lemma lexicographic_pad_nil b (i j : nat) :
  (i = length b + j)%nat ->
  lexicographic (replicate i 0) (b ++ replicate j 0) = exhausted_against b.
Proof.
  revert i j. induction b as [|y b IHb]; intros i j Hlen; simpl in *.
  - subst. rewrite lexicographic_replicate. apply Nat.compare_refl.
  - destruct i as [|i]; [lia|]. simpl.
    destruct y as [|q]; [|done]. apply (IHb i j). lia.
Qed.

Lemma lexicographic_pad a b (i j : nat) :
  (length a + i = length b + j)%nat ->
  lexicographic (a ++ replicate i 0) (b ++ replicate j 0) = lexicographic_zeros a b.
Proof.
  revert b i j. induction a as [|x a IH]; intros b i j Hlen.
  - by apply lexicographic_pad_nil.
  - destruct b as [|y b].
    + change (lexicographic_zeros (x :: a) []) with (CompOpp (exhausted_against (x :: a))).
      rewrite <- (lexicographic_pad_nil (x :: a) j i) by (simpl in *; lia).
      apply lexicographic_swap.
    + simpl in *. destruct (x ?= y); try done. apply IH. lia.
Qed.

Lemma compare_padded_zeros a b : compare_padded a b = lexicographic_zeros a b.
Proof. unfold compare_padded, zero_pad. apply lexicographic_pad. lia. Qed.

Lemma compare_keys_padded a b :
  lexicographic (strip_trailing_zeros a) (strip_trailing_zeros b) = compare_padded a b.
Proof. by rewrite lexicographic_strip, compare_padded_zeros. Qed.

(** ** Facts about [startswith] and [in] *)

Lemma startswith_prefix s p : startswith s p = true <-> exists post, s = p ++ post.
Proof.
  revert s. induction p as [|c p IH]; intros [|d s]; simpl.
  - split; eauto.
  - split; eauto.
  - split; [done|]. by intros [post ?].
  - rewrite andb_true_iff, IH, N.eqb_eq. split.
    + intros [-> [post ->]]. by exists post.
    + intros [post [= -> ->]]. eauto.
Qed.

Lemma str_contains_infix h n :
  str_contains h n = true <-> exists pre post, h = pre ++ n ++ post.
Proof.
  induction h as [|c h IH].
  all: cbn [str_contains]; rewrite orb_true_iff, startswith_prefix.
  - split.
    + intros [[post Hpost]|?]; [|done]. by exists [], post.
    + intros (pre & post & H). left. exists post.
      destruct pre; [done|discriminate].
  - rewrite IH. split.
    + intros [[post Hpost]|(pre & post & ->)]; [by exists [], post|].
      by exists (c :: pre), post.
    + intros (pre & post & H). destruct pre as [|c' pre].
      * left. by exists post.
      * right. injection H as -> ->. by exists pre, post.
Qed.

Lemma startswith_str_contains s p :
  startswith s p = true -> str_contains s p = true.
Proof.
  rewrite startswith_prefix, str_contains_infix.
  intros [post ->]. by exists [], post.
Qed.

(** C9: [installed.startswith(latest)] implies [latest in installed], so
    the condition of the pre-filter, with its two disjuncts, has the
    value of the substring test alone. *)
Theorem prefilter_is_substring_test (installed latest : pystr) :
  (startswith installed latest = true -> str_contains installed latest = true) /\
  str_contains installed latest || startswith installed latest
  = str_contains installed latest.
Proof.
  split; [apply startswith_str_contains|].
  destruct (startswith installed latest) eqn:Hs.
  - by rewrite (startswith_str_contains _ _ Hs).
  - apply orb_false_r.
Qed.

Lemma prefilter_is_substring_test_witness :
  str_contains (of_string "12.3 (4567)") (of_string "12.3") = true.
Proof.
  apply (proj1 (prefilter_is_substring_test
                  (of_string "12.3 (4567)") (of_string "12.3"))).
  reflexivity.
Defined.

Lemma split_dots_nonempty s : split_dots s <> [].
Proof.
  destruct s as [|c s]; [done|].
  simpl. destruct (is_dot c); [done|]. by destruct (split_dots s).
Qed.

Ltac unfold_parse := unfold parse.
Ltac unfold_compare_versions := unfold compare_versions.
Ltac unfold_classify := unfold classify.

Section CompareFacts.

Variable isdigit_nonascii : char -> bool.
Variable max_str_digits : nat.

Local Abbreviation normalize_version := (normalize_version isdigit_nonascii).
Local Abbreviation parse := (parse max_str_digits).
Local Abbreviation compare_versions := (compare_versions isdigit_nonascii max_str_digits).
Local Abbreviation classify := (classify isdigit_nonascii max_str_digits).
Local Abbreviation find_updates := (find_updates isdigit_nonascii max_str_digits).

(** A version that parses has at least one integer component. *)
Lemma parse_release_nonempty s v : parse s = Returns v -> release v <> [].
Proof.
  unfold_parse. destruct (mapM release_component (split_dots s)) as [cs|] eqn:Hcs; [|done].
  destruct (existsb _ _); [done|]. intros [= <-]. simpl. intros ->.
  apply length_mapM in Hcs. pose proof (split_dots_nonempty s).
  by destruct (split_dots s).
Qed.

(** [parse] raises nothing but [InvalidVersion] and the [ValueError] of
    [int()]. *)
Lemma parse_raises s e :
  parse s = Raises e -> e = InvalidVersion \/ e = ValueError_int_digits.
Proof.
  unfold_parse. destruct (mapM release_component (split_dots s)).
  - destruct (existsb _ _); [|done]. intros [= <-]. by right.
  - intros [= <-]. by left.
Qed.

Lemma compare_versions_parsed a b va vb :
  parse (normalize_version a) = Returns va ->
  parse (normalize_version b) = Returns vb ->
  compare_versions a b
  = Returns (outcome_of (compare_padded (release va) (release vb))).
Proof.
  intros Ha Hb. unfold_compare_versions.
  rewrite Ha, Hb. unfold Version_lt, Version_gt, _key.
  by rewrite three_way_lexicographic, compare_keys_padded.
Qed.

(** C1: when both strings parse, [compare_versions] is the lexicographic
    comparison of the two release tuples, the shorter one padded with
    zeros: less gives [update_available], greater [up_to_date], equal
    [versions_equal].  A parseable string compared with itself gives
    [versions_equal]; "1.2" against "1.2.1" gives [update_available] and
    "1.2.1" against "1.2" gives [up_to_date]. *)
Theorem compare_versions_lexicographic (a b : pystr) (va vb : Version) :
  parse (normalize_version a) = Returns va ->
  parse (normalize_version b) = Returns vb ->
  compare_versions a b
  = Returns (outcome_of (compare_padded (release va) (release vb))) /\
  compare_versions a a = Returns versions_equal /\
  compare_versions (of_string "1.2") (of_string "1.2.1") = Returns update_available /\
  compare_versions (of_string "1.2.1") (of_string "1.2") = Returns up_to_date.
Proof.
  intros Ha Hb. split; [by apply compare_versions_parsed|].
  split; [|by vm_compute].
  rewrite (compare_versions_parsed a a va va Ha Ha).
  by rewrite compare_padded_zeros, <- lexicographic_strip, lexicographic_refl.
Qed.

(** When [compare_versions] returns "unknown": the installed version is
    not a version, or it parses and the latest one is not a version. *)
Lemma unknown_iff_parse_fails a b :
  compare_versions a b = Returns unknown <->
  parse (normalize_version a) = Raises InvalidVersion \/
  ((exists va, parse (normalize_version a) = Returns va) /\
   parse (normalize_version b) = Raises InvalidVersion).
Proof.
  unfold_compare_versions.
  destruct (parse (normalize_version a)) as [va|ea] eqn:Ha.
  - destruct (parse (normalize_version b)) as [vb|eb] eqn:Hb.
    + split.
      * by destruct (Version_lt va vb), (Version_gt va vb).
      * by intros [?|[_ ?]].
    + destruct (parse_raises _ _ Hb) as [-> | ->].
      * split; [right; eauto|done].
      * split; [done|]. by intros [?|[_ ?]].
  - destruct (parse_raises _ _ Ha) as [-> | ->].
    + split; [by left|done].
    + split; [done|]. by intros [?|[[? ?] _]].
Qed.

(** When [compare_versions] raises: it is the [ValueError] of [int()],
    from the installed version, or from the latest one after the
    installed one has parsed. *)
Lemma compare_versions_raises_iff a b e :
  compare_versions a b = Raises e <->
  e = ValueError_int_digits /\
  (parse (normalize_version a) = Raises ValueError_int_digits \/
   ((exists va, parse (normalize_version a) = Returns va) /\
    parse (normalize_version b) = Raises ValueError_int_digits)).
Proof.
  unfold_compare_versions.
  destruct (parse (normalize_version a)) as [va|ea] eqn:Ha.
  - destruct (parse (normalize_version b)) as [vb|eb] eqn:Hb.
    + split; [done|]. by intros [_ [?|[_ ?]]].
    + destruct (parse_raises _ _ Hb) as [-> | ->].
      * split; [done|]. by intros [_ [?|[_ ?]]].
      * split; [intros [= <-]; split; [done|right; eauto]|by intros [-> _]].
  - destruct (parse_raises _ _ Ha) as [-> | ->].
    + split; [done|]. by intros [_ [?|[[? ?] _]]].
    + split; [intros [= <-]; split; [done|by left]|by intros [-> _]].
Qed.

Lemma update_available_swap a b :
  compare_versions a b = Returns update_available <->
  compare_versions b a = Returns up_to_date.
Proof.
  unfold_compare_versions.
  destruct (parse (normalize_version a)) as [va|[| | |]],
           (parse (normalize_version b)) as [vb|[| | |]]; try done.
  unfold Version_lt, Version_gt. rewrite !tuple_gt_lt.
  pose proof (tuple_lt_asym (_key va) (_key vb)) as Hasym.
  destruct (tuple_lt (_key va) (_key vb)), (tuple_lt (_key vb) (_key va));
    try done. by specialize (Hasym eq_refl).
Qed.

(** *** The classification loop *)

Lemma classify_four name ident installed latest :
  classify [name; ident; installed; latest]
  = if is_empty installed || is_empty latest then Returns skip_incomplete
    else if str_contains installed latest || startswith installed latest
    then Returns skip_prefilter
    else comparison_result ← compare_versions installed latest;
         Returns (compared comparison_result).
Proof. unfold_classify. done. Qed.

Lemma appends_update d : appends d = true -> d = compared update_available.
Proof. by destruct d as [| | |[]]. Qed.

Lemma find_updates_classified app_data updates e :
  find_updates app_data = Returns updates -> e ∈ updates ->
  classify e = Returns (compared update_available).
Proof.
  revert updates. induction app_data as [|x app_data IH]; intros updates; simpl.
  - intros [= <-]. by intros ?%elem_of_nil.
  - destruct (classify x) as [d|] eqn:Hx; [|done]. simpl.
    destruct (find_updates app_data) as [us|]; [|done]. simpl.
    intros [= <-]. specialize (IH us eq_refl).
    destruct (appends d) eqn:Hd; [|done].
    intros [->|?]%elem_of_cons; [|by apply IH].
    by rewrite Hx, (appends_update d Hd).
Qed.

Lemma find_updates_sublist app_data updates :
  find_updates app_data = Returns updates -> updates `sublist_of` app_data.
Proof.
  revert updates. induction app_data as [|x app_data IH]; intros updates; simpl.
  - by intros [= <-].
  - destruct (classify x) as [d|]; [|done]. simpl.
    destruct (find_updates app_data) as [us|]; [|done]. simpl.
    intros [= <-]. specialize (IH us eq_refl).
    destruct (appends d); by constructor.
Qed.

(** C2: with both versions non-empty, an entry whose latest version is a
    substring of the installed one, or a prefix of it, leaves the loop on
    the pre-filter branch: [compare_versions] is not reached and the entry
    is in no update list, whatever the comparison would say.  So it is
    for installed "12.3 (4567)" and latest "12.3". *)
Theorem prefilter_excludes (name ident installed latest : pystr) :
  installed <> [] -> latest <> [] ->
  str_contains installed latest = true \/ startswith installed latest = true ->
  classify [name; ident; installed; latest] = Returns skip_prefilter /\
  (forall app_data updates,
      find_updates app_data = Returns updates ->
      [name; ident; installed; latest] ∉ updates) /\
  classify [name; ident; of_string "12.3 (4567)"; of_string "12.3"]
  = Returns skip_prefilter.
Proof.
  intros Hi Hl Hpre.
  assert (Hc : classify [name; ident; installed; latest] = Returns skip_prefilter).
  { rewrite classify_four.
    destruct installed; [done|]. destruct latest; [done|]. cbn [is_empty orb].
    apply orb_true_iff in Hpre. by rewrite Hpre. }
  split; [done|]. split; [|done].
  intros app_data updates Hu Hin.
  pose proof (find_updates_classified _ _ _ Hu Hin) as Hc'. congruence.
Qed.

(** An entry whose comparison returns "unknown" is in no update list. *)
Lemma unknown_not_reported name ident a b app_data updates :
  compare_versions a b = Returns unknown ->
  find_updates app_data = Returns updates ->
  [name; ident; a; b] ∉ updates.
Proof.
  intros Hunknown Hu Hin.
  pose proof (find_updates_classified _ _ _ Hu Hin) as Hc.
  rewrite classify_four, Hunknown in Hc. by repeat case_match.
Qed.

End CompareFacts.

(** C7: at the interpreter's default limit of 4300 digits, for an
    installed version of 4301 digits and the latest version "n/a", which
    is not a version, [compare_versions] does not answer "unknown": the
    [ValueError] of [int()] leaves the function, which catches only
    [InvalidVersion]. *)
Theorem compare_versions_oversized_raises (isdigit_nonascii : char -> bool) :
  parse 4300 (normalize_version isdigit_nonascii (of_string "n/a"))
  = Raises InvalidVersion /\
  compare_versions isdigit_nonascii 4300 (replicate 4301 49) (of_string "n/a")
  = Raises ValueError_int_digits.
Proof. by vm_compute. Qed.

(** The two examples of the empty string hold at every limit. *)
Example compare_versions_empty (isdigit_nonascii : char -> bool) (max_str_digits : nat) :
  compare_versions isdigit_nonascii max_str_digits [] (of_string "1.0")
  = Returns unknown /\
  compare_versions isdigit_nonascii max_str_digits (of_string "1.0") []
  = Returns unknown.
Proof. by vm_compute. Qed.

(** C10: at the default limit, swapping the arguments does not keep
    "unknown": with "n/a" first the function returns "unknown", with the
    4301 digits first it raises. *)
Theorem compare_versions_swap_diverges (isdigit_nonascii : char -> bool) :
  compare_versions isdigit_nonascii 4300 (of_string "n/a") (replicate 4301 49)
  = Returns unknown /\
  compare_versions isdigit_nonascii 4300 (replicate 4301 49) (of_string "n/a")
  = Raises ValueError_int_digits.
Proof. by vm_compute. Qed.

Lemma compare_versions_lexicographic_witness :
  compare_versions (fun _ => false) 4300 (of_string "v1.9") (of_string "1.10.0")
  = Returns update_available.
Proof.
  exact (proj1 (compare_versions_lexicographic (fun _ => false) 4300
                  (of_string "v1.9") (of_string "1.10.0")
                  {| release := [1; 9] |} {| release := [1; 10; 0] |}
                  eq_refl eq_refl)).
Defined.

Lemma prefilter_excludes_witness :
  classify (fun _ => false) 4300
    [of_string "Foo"; of_string "com.foo"; of_string "1.2"; of_string "2"]
  = Returns skip_prefilter.
Proof.
  apply (prefilter_excludes (fun _ => false) 4300 (of_string "Foo") (of_string "com.foo")
           (of_string "1.2") (of_string "2")).
  - discriminate.
  - discriminate.
  - left. reflexivity.
Defined.

(** The pre-filter decides before the comparison does: "2" is a substring
    of "1.2", so the entry is skipped although the comparison of the two
    would report an update. *)
Example prefilter_overrides_compare :
  compare_versions (fun _ => false) 4300 (of_string "1.2") (of_string "2")
  = Returns update_available /\
  find_updates (fun _ => false) 4300
    [[of_string "Foo"; of_string "com.foo"; of_string "1.2"; of_string "2"]]
  = Returns [].
Proof. by vm_compute. Qed.

(** ** Facts about the sort *)

Lemma str_le_total a b : str_le a b = false -> str_le b a = true.
Proof.
  revert b. induction a as [|x a IH]; intros [|y b]; try done.
  simpl. rewrite (N.eqb_sym y x). destruct (N.eqb_spec x y); [apply IH|].
  intros ?%N.ltb_ge. apply N.ltb_lt. lia.
Qed.

Lemma str_le_trans a b c :
  str_le a b = true -> str_le b c = true -> str_le a c = true.
Proof.
  revert b c. induction a as [|x a IH]; intros [|y b] [|z c]; try done.
  simpl.
  destruct (N.eqb_spec x y) as [Hxy|Hxy], (N.eqb_spec y z) as [Hyz|Hyz],
    (N.eqb_spec x z) as [Hxz|Hxz]; try congruence; try apply IH.
  - intros ?%N.ltb_lt ?%N.ltb_lt. lia.
  - intros ?%N.ltb_lt ?%N.ltb_lt. apply N.ltb_lt. lia.
Qed.

Section SortFacts.

Context {A : Type}.
Implicit Types (kx : pystr * A) (l : list (pystr * A)).

Lemma insert_by_key_perm kx l : insert_by_key kx l ≡ₚ kx :: l.
Proof.
  induction l as [|ky l IH]; [done|].
  simpl. destruct (str_le kx.1 ky.1); [done|].
  rewrite IH. apply Permutation_swap.
Qed.

Lemma stable_sort_perm l : stable_sort l ≡ₚ l.
Proof.
  induction l as [|kx l IH]; [done|].
  simpl. by rewrite insert_by_key_perm, IH.
Qed.

Lemma insert_by_key_sorted kx l :
  StronglySorted key_le l -> StronglySorted key_le (insert_by_key kx l).
Proof.
  induction 1 as [|ky l Hl IH Hky]; simpl.
  - by repeat constructor.
  - destruct (str_le kx.1 ky.1) eqn:Hle.
    + constructor; [by constructor|].
      constructor; [done|].
      eapply Forall_impl; [exact Hky|].
      intros kz Hz. unfold key_le in *. by eapply str_le_trans.
    + constructor; [done|].
      rewrite insert_by_key_perm. constructor; [|done].
      by apply str_le_total.
Qed.

Lemma stable_sort_sorted l : StronglySorted key_le (stable_sort l).
Proof.
  induction l as [|kx l IH]; [constructor|].
  by apply insert_by_key_sorted.
Qed.

End SortFacts.

(** ** Facts about the pipeline *)

Ltac unfold_sort_by_name := unfold sort_by_name.
Ltac unfold_main_async := unfold main_async.



Lemma fetch_latest_versions_Some app_data scrape fetched :
  fetch_latest_versions app_data scrape = Some fetched ->
  fetched = with_latest app_data scrape /\
  Forall (fun e : list pystr => length e = 3%nat) app_data.
Proof.
  revert scrape fetched. induction app_data as [|e app_data IH]; intros scrape fetched.
  - by intros [= <-].
  - simpl. destruct e as [|a [|b [|c [|d e]]]]; try done. simpl.
    destruct (fetch_latest_versions app_data _) as [entries|] eqn:Hrest; [|done].
    simpl. intros [= <-]. destruct (IH _ _ Hrest) as [-> Hlen].
    split; [done|]. by constructor.
Qed.

Section PipelineFacts.

Variable isdigit_nonascii : char -> bool.
Variable max_str_digits : nat.
Variable lower : pystr -> pystr.

Local Abbreviation compare_versions := (compare_versions isdigit_nonascii max_str_digits).
Local Abbreviation classify := (classify isdigit_nonascii max_str_digits).
Local Abbreviation find_updates := (find_updates isdigit_nonascii max_str_digits).
Local Abbreviation sort_key := (sort_key lower).
Local Abbreviation name_le := (name_le lower).
Local Abbreviation sort_by_name := (sort_by_name lower).
Local Abbreviation main_async := (main_async isdigit_nonascii max_str_digits lower).




Lemma keyed_sorted_names (keyed : list (pystr * list pystr)) :
  Forall (fun p => sort_key p.2 = Some p.1) keyed ->
  StronglySorted key_le keyed ->
  StronglySorted name_le (keyed.*2).
Proof.
  intros Hkeys Hsorted.
  induction Hsorted as [|p keyed _ IH Hp]; [constructor|].
  apply Forall_cons in Hkeys as [Hkp Hkeys].
  simpl. constructor; [by apply IH|].
  apply Forall_fmap. rewrite Forall_forall in Hkeys, Hp. apply Forall_forall.
  intros q Hq. exists p.1, q.1. split; [done|]. split; [by apply Hkeys|by apply Hp].
Qed.


Lemma decorate_keys (app_data : list (list pystr)) keyed :
  mapM (fun x => k ← sort_key x; Some (k, x)) app_data = Some keyed ->
  keyed.*2 = app_data /\ Forall (fun p => sort_key p.2 = Some p.1) keyed.
Proof.
  intros H%mapM_Some_1. induction H as [|x p app_data keyed Hx _ [IH1 IH2]]; [done|].
  destruct (sort_key x) as [k|] eqn:Hk; [|done]. injection Hx as <-.
  split; [by rewrite fmap_cons, IH1|]. by constructor.
Qed.

Lemma sort_by_name_Some (app_data sorted : list (list pystr)) :
  sort_by_name app_data = Some sorted ->
  sorted ≡ₚ app_data /\ StronglySorted name_le sorted.
Proof.
  unfold_sort_by_name.
  destruct (mapM _ app_data) as [keyed|] eqn:Hk; [|done]. simpl. intros [= <-].
  destruct (decorate_keys _ _ Hk) as [Hsnd Hkeys]. split.
  - by rewrite stable_sort_perm, Hsnd.
  - apply keyed_sorted_names; [|apply stable_sort_sorted].
    by rewrite stable_sort_perm.
Qed.

(** What a run of [main_async] that returns went through. *)
Lemma main_async_Returns (app_data : list (list pystr)) (scrape : nat -> pystr)
    (fetched updates : list (list pystr)) :
  main_async app_data scrape = Returns (fetched, updates) ->
  exists sorted,
    sort_by_name app_data = Some sorted /\
    fetched = with_latest sorted scrape /\
    find_updates fetched = Returns updates.
Proof.
  unfold_main_async.
  destruct (sort_by_name app_data) as [sorted|] eqn:Hsort; [|done].
  destruct (fetch_latest_versions sorted scrape) as [fetched'|] eqn:Hfetch; [|done].
  destruct (find_updates fetched') as [updates'|] eqn:Hu; [|done].
  simpl. intros [= <- <-]. exists sorted.
  by destruct (fetch_latest_versions_Some _ _ _ Hfetch) as [-> _].
Qed.


(** C8: when [main_async] returns, the entries it returns are the input
    sorted by lower-cased name, each with its latest version attached,
    and the update list is a sublist of them: two updates stand in the
    order they have in the sorted input. *)
Theorem updates_follow_input_order
    (app_data : list (list pystr)) (scrape : nat -> pystr)
    (fetched updates : list (list pystr)) :
  main_async app_data scrape = Returns (fetched, updates) ->
  exists sorted,
    sorted ≡ₚ app_data /\
    StronglySorted name_le sorted /\
    fetched = with_latest sorted scrape /\
    updates `sublist_of` with_latest sorted scrape.
Proof.
  intros (sorted & Hsort & -> & Hu)%main_async_Returns.
  destruct (sort_by_name_Some _ _ Hsort) as [Hperm Hsorted].
  exists sorted. split_and!; try done. by eapply find_updates_sublist.
Qed.

End PipelineFacts.

Lemma updates_follow_input_order_witness :
  exists sorted,
    sorted ≡ₚ [[of_string "Foo"; of_string "com.foo"; of_string "1.0.0"];
               [of_string "Bar"; of_string "com.bar"; of_string "2.0.0"]] /\
    StronglySorted (name_le ascii_lower) sorted /\
    [[of_string "Bar"; of_string "com.bar"; of_string "2.0.0"; of_string "2.0.0"];
     [of_string "Foo"; of_string "com.foo"; of_string "1.0.0"; of_string "1.1.0"]]
    = with_latest sorted
        (fun i => match i with O => of_string "2.0.0" | _ => of_string "1.1.0" end) /\
    [[of_string "Foo"; of_string "com.foo"; of_string "1.0.0"; of_string "1.1.0"]]
      `sublist_of`
      with_latest sorted
        (fun i => match i with O => of_string "2.0.0" | _ => of_string "1.1.0" end).
Proof.
  apply (updates_follow_input_order (fun _ => false) 4300 ascii_lower
           [[of_string "Foo"; of_string "com.foo"; of_string "1.0.0"];
            [of_string "Bar"; of_string "com.bar"; of_string "2.0.0"]]).
  vm_compute. reflexivity.
Defined.

(** The end-to-end example of the specification: "Bar" sorts first and
    is current, "Foo" has an update. *)
Example main_async_foo_bar :
  main_async (fun _ => false) 4300 ascii_lower
    [[of_string "Foo"; of_string "com.foo"; of_string "1.0.0"];
     [of_string "Bar"; of_string "com.bar"; of_string "2.0.0"]]
    (fun i => match i with O => of_string "2.0.0" | _ => of_string "1.1.0" end)
  = Returns
      ([[of_string "Bar"; of_string "com.bar"; of_string "2.0.0"; of_string "2.0.0"];
        [of_string "Foo"; of_string "com.foo"; of_string "1.0.0"; of_string "1.1.0"]],
       [[of_string "Foo"; of_string "com.foo"; of_string "1.0.0"; of_string "1.1.0"]]).
Proof. by vm_compute. Qed.

(** ** Facts about the admission gate *)

Section GateFacts.

Import Gate.
Local Open Scope nat_scope.

Lemma count_in_flight_cons t ts :
  count_in_flight (t :: ts) = in_flight_bit t + count_in_flight ts.
Proof.
  unfold count_in_flight, in_flight_bit. rewrite filter_cons.
  by destruct (decide (t = in_flight)).
Qed.

Lemma count_in_flight_insert ts i t t' :
  ts !! i = Some t ->
  count_in_flight (<[i := t']> ts) + in_flight_bit t
  = count_in_flight ts + in_flight_bit t'.
Proof.
  revert i. induction ts as [|u ts IH]; intros [|i]; simpl; try done.
  - intros [= ->]. rewrite !count_in_flight_cons. lia.
  - intros Hi. rewrite !count_in_flight_cons. specialize (IH i Hi). lia.
Qed.

Lemma count_in_flight_init n : count_in_flight (replicate n waiting) = 0.
Proof.
  induction n as [|n IH]; [done|].
  simpl. by rewrite count_in_flight_cons, IH.
Qed.

(** The counter and the tasks inside the gate always add up to the
    limit the semaphore was created with. *)
Lemma step_invariant st e st' limit :
  step st e = Some st' ->
  sem_value st + count_in_flight (tasks st) = limit ->
  sem_value st' + count_in_flight (tasks st') = limit.
Proof.
  destruct e as [i|i]; simpl.
  - destruct (tasks st !! i) as [[| |]|] eqn:Hi; try done.
    destruct (sem_value st) as [|value] eqn:Hv; [done|].
    intros [= <-]. simpl.
    pose proof (count_in_flight_insert _ _ _ in_flight Hi) as Hc.
    unfold in_flight_bit in Hc at 1 2. simpl in Hc. lia.
  - destruct (tasks st !! i) as [[| |]|] eqn:Hi; try done.
    intros [= <-]. simpl.
    pose proof (count_in_flight_insert _ _ _ settled Hi) as Hc.
    unfold in_flight_bit in Hc at 1 2. simpl in Hc. lia.
Qed.

Lemma run_invariant schedule st st' limit :
  run st schedule = Some st' ->
  sem_value st + count_in_flight (tasks st) = limit ->
  sem_value st' + count_in_flight (tasks st') = limit.
Proof.
  revert st. induction schedule as [|e schedule IH]; intros st; simpl.
  - by intros [= <-].
  - destruct (step st e) as [st1|] eqn:He; [|done]. simpl.
    intros Hrun Hinv. apply (IH st1 Hrun). by eapply step_invariant.
Qed.

(** C3: whatever the interleaving of the tasks, the number of lookups in
    flight never exceeds the limit of the one semaphore all tasks share;
    with the limit [main_async] configures it never exceeds 20. *)
Theorem in_flight_within_limit
    (limit : nat) (app_data : list (list pystr)) (schedule : list event) (st : state) :
  run (init limit app_data) schedule = Some st ->
  count_in_flight (tasks st) <= limit /\
  sem_value st + count_in_flight (tasks st) = limit /\
  (init limit app_data = main_async_gate app_data ->
   count_in_flight (tasks st) <= 20).
Proof.
  intros Hrun.
  assert (Hinv : sem_value st + count_in_flight (tasks st) = limit).
  { apply (run_invariant _ _ _ _ Hrun). simpl.
    rewrite count_in_flight_init. lia. }
  split_and!; [lia|done|].
  unfold main_async_gate, init. intros [= ->]. unfold SEM_LIMIT in *. lia.
Qed.

End GateFacts.

Lemma in_flight_within_limit_witness :
  Gate.run (Gate.init 2 [[]; []; []])
    [Gate.Acquire 0; Gate.Acquire 2; Gate.Release 0; Gate.Acquire 1]
  = Some {| Gate.sem_value := 0;
            Gate.tasks := [Gate.settled; Gate.in_flight; Gate.in_flight] |} /\
  (Gate.count_in_flight [Gate.settled; Gate.in_flight; Gate.in_flight] <= 2)%nat.
Proof.
  split; [reflexivity|].
  exact (proj1 (in_flight_within_limit 2 [[]; []; []]
                  [Gate.Acquire 0; Gate.Acquire 2; Gate.Release 0; Gate.Acquire 1]
                  {| Gate.sem_value := 0;
                     Gate.tasks := [Gate.settled; Gate.in_flight; Gate.in_flight] |}
                  eq_refl)).
Defined.

(** With the gate full, a further task is not admitted. *)
Example gate_full_blocks :
  Gate.run (Gate.init 1 [[]; []]) [Gate.Acquire 0; Gate.Acquire 1] = None.
Proof. reflexivity. Qed.

(** * Further properties of the version model *)

Lemma filter_lstrip_dots (p : char -> bool) s :
  p dot = false -> List.filter p (lstrip_dots s) = List.filter p s.
Proof.
  intros Hp. induction s as [|c s IH]; [done|].
  simpl. destruct (is_dot c) eqn:Hc; [|done].
  apply is_dot_true in Hc as ->. by rewrite Hp.
Qed.

Lemma filter_rstrip_dots (p : char -> bool) s :
  p dot = false -> List.filter p (rstrip_dots s) = List.filter p s.
Proof.
  intros Hp. induction s as [|c s IH]; [done|].
  simpl. rewrite <- IH. destruct (rstrip_dots s) as [|d kept]; [|done].
  destruct (is_dot c) eqn:Hc; [|done].
  apply is_dot_true in Hc as ->. simpl. by rewrite Hp.
Qed.

Lemma filter_collapse (p : char -> bool) s :
  p dot = false -> List.filter p (collapse_separators s) = List.filter p s.
Proof.
  intros Hp. induction s as [|c s IH]; [done|].
  simpl. destruct (is_dot c) eqn:Hc, (starts_with_dot s); simpl; rewrite IH; try done.
  apply is_dot_true in Hc as ->. by rewrite Hp.
Qed.

Lemma length_lstrip_dots s : (length (lstrip_dots s) <= length s)%nat.
Proof. induction s as [|c s IH]; simpl; [done|]. destruct (is_dot c); simpl; lia. Qed.

Lemma length_rstrip_dots s : (length (rstrip_dots s) <= length s)%nat.
Proof.
  induction s as [|c s IH]; simpl; [done|].
  destruct (rstrip_dots s); [destruct (is_dot c)|]; simpl in *; lia.
Qed.

Lemma length_collapse s : (length (collapse_separators s) <= length s)%nat.
Proof.
  induction s as [|c s IH]; simpl; [done|].
  destruct (is_dot c && starts_with_dot s); simpl; lia.
Qed.

(** The parts of [split_dots]: the first one is empty exactly when the
    string is empty or starts with a dot; the others are non-empty
    exactly when there is neither a dot at the end nor a run of dots. *)
Lemma split_dots_parts s :
  exists part parts,
    split_dots s = part :: parts /\
    (part = [] <-> s = [] \/ starts_with_dot s = true) /\
    (Forall (fun q : pystr => q <> []) parts <->
     ends_with_dot s = false /\ has_dot_run s = false).
Proof.
  induction s as [|c s (part & parts & Hs & Hpart & Hparts)].
  - exists [], []. split; [done|]. split; [by split; [left|]|done].
  - cbn [split_dots]. rewrite Hs. destruct (is_dot c) eqn:Hc.
    + exists [], (part :: parts). split_and!; [done|split; [by right|done]|].
      rewrite Forall_cons, Hparts. cbn [has_dot_run]. rewrite Hc. simpl.
      destruct s as [|d s].
      * simpl. rewrite Hc. split; [|by intros [? _]].
        intros [Hne _]. destruct Hne. apply Hpart. by left.
      * change (ends_with_dot (c :: d :: s)) with (ends_with_dot (d :: s)).
        rewrite orb_false_iff. split.
        -- intros [Hne [? ?]]. split_and!; try done.
           destruct (starts_with_dot (d :: s)) eqn:Hd; [|done].
           destruct Hne. apply Hpart. by right.
        -- intros [? [Hd ?]]. split_and!; try done.
           intros [?|?]%Hpart; [done|congruence].
    + exists (c :: part), parts. split_and!; [done|split; [done|]|].
      * intros [?|?]; [done|]. simpl in *. congruence.
      * rewrite Hparts. cbn [has_dot_run]. rewrite Hc. simpl.
        destruct s as [|d s]; [|done]. simpl. by rewrite Hc.
Qed.

Lemma split_dots_digits s :
  Forall (fun q : pystr => forallb is_ascii_digit q = true) (split_dots s) <->
  forallb (fun c => is_ascii_digit c || is_dot c) s = true.
Proof.
  induction s as [|c s IH]; [by split; [|repeat constructor]|].
  cbn [split_dots forallb]. rewrite andb_true_iff, <- IH.
  destruct (is_dot c) eqn:Hc.
  - rewrite orb_true_r, Forall_cons. simpl. tauto.
  - rewrite orb_false_r.
    destruct (split_dots s) as [|part parts] eqn:Hs; [by destruct (split_dots_nonempty s)|].
    rewrite !Forall_cons. simpl. rewrite andb_true_iff. tauto.
Qed.

Lemma release_component_is_Some part :
  is_Some (release_component part) <-> part <> [] /\ forallb is_ascii_digit part = true.
Proof.
  destruct part as [|c part]; simpl.
  - split; [by intros [? ?]|by intros [? _]].
  - destruct (is_ascii_digit c && forallb is_ascii_digit part); split; eauto.
    + by intros [? ?].
    + by intros [_ ?].
Qed.

(** When the version pattern matches a string. *)
Lemma pattern_matches_iff s :
  is_Some (mapM release_component (split_dots s)) <->
  s <> [] /\ starts_with_dot s = false /\ ends_with_dot s = false /\
  has_dot_run s = false /\
  forallb (fun c => is_ascii_digit c || is_dot c) s = true.
Proof.
  rewrite <- split_dots_digits.
  destruct (split_dots_parts s) as (part & parts & Hs & Hpart & Hparts).
  transitivity (Forall (fun q => is_Some (release_component q)) (split_dots s)).
  - split; [apply mapM_is_Some_1|apply mapM_is_Some_2].
  - rewrite Hs. rewrite !Forall_cons, release_component_is_Some.
    assert (Forall (fun q => is_Some (release_component q)) parts <->
            Forall (fun q => q <> [] /\ forallb is_ascii_digit q = true) parts) as ->
      by (apply Forall_iff; intros; apply release_component_is_Some).
    rewrite Forall_and, Hparts.
    split.
    + intros [[Hne ?] [[? ?] ?]]. split_and!; try done.
      * intros ->. apply Hne, Hpart. by left.
      * destruct (starts_with_dot s) eqn:Hd; [|done]. destruct Hne. apply Hpart. by right.
    + intros (Hne & Hd & ? & ? & [? ?]). split_and!; try done.
      intros [?|?]%Hpart; congruence.
Qed.

Lemma filter_nil_Forall (p : char -> bool) s :
  List.filter p s = [] <-> Forall (fun c => p c = false) s.
Proof.
  induction s as [|c s IH]; [by split; [constructor|]|].
  simpl. rewrite Forall_cons, <- IH. destruct (p c); split; try done.
  - by intros [? _].
  - by intros [_ ?].
Qed.

Lemma Exists_not_Forall_bool (p : char -> bool) s :
  ~ Forall (fun c => p c = false) s <-> Exists (fun c => p c = true) s.
Proof.
  induction s as [|c s IH].
  - split; [by intros []|by intros ?%Exists_nil].
  - rewrite Forall_cons, Exists_cons, <- IH.
    destruct (p c); split.
    + intros _. by left.
    + by intros _ [? _].
    + intros H. right. intros HF. by apply H.
    + intros [?|H] [_ HF]; [done|by apply H].
Qed.

Lemma elem_of_filter_bool (p : char -> bool) s c :
  c ∈ List.filter p s <-> c ∈ s /\ p c = true.
Proof. rewrite !list_elem_of_In. apply filter_In. Qed.

Lemma tuple_lt_trans a b c :
  tuple_lt a b = true -> tuple_lt b c = true -> tuple_lt a c = true.
Proof.
  revert b c. induction a as [|x a IH]; intros [|y b] [|z c]; try done.
  simpl.
  destruct (N.eqb_spec x y) as [Hxy|Hxy], (N.eqb_spec y z) as [Hyz|Hyz],
    (N.eqb_spec x z) as [Hxz|Hxz]; try congruence; try apply IH.
  - intros ?%N.ltb_lt ?%N.ltb_lt. lia.
  - intros ?%N.ltb_lt ?%N.ltb_lt. apply N.ltb_lt. lia.
Qed.

Lemma tuple_lt_total a b :
  tuple_lt a b = false -> tuple_lt b a = false -> a = b.
Proof.
  revert b. induction a as [|x a IH]; intros [|y b]; try done.
  simpl. rewrite (N.eqb_sym y x).
  destruct (N.eqb_spec x y) as [->|Hxy].
  - intros ? ?. f_equal. by apply IH.
  - intros ?%N.ltb_ge ?%N.ltb_ge. lia.
Qed.

Lemma lexicographic_Eq a b : lexicographic a b = Eq <-> a = b.
Proof.
  split; [|intros ->; apply lexicographic_refl].
  revert b. induction a as [|x a IH]; intros [|y b]; try done.
  simpl. destruct (N.compare_spec x y) as [->|?|?]; try done.
  intros ?. f_equal. by apply IH.
Qed.

Lemma strip_trailing_zeros_zeros n : strip_trailing_zeros (replicate n 0) = [].
Proof. induction n as [|n IH]; [done|]. simpl. by rewrite IH. Qed.

Lemma strip_trailing_zeros_app r n :
  strip_trailing_zeros (r ++ replicate n 0) = strip_trailing_zeros r.
Proof.
  induction r as [|x r IH]; simpl.
  - apply strip_trailing_zeros_zeros.
  - by rewrite IH.
Qed.

Ltac unfold_isdigit := unfold isdigit.
Ltac unfold_version_char := unfold version_char.
Ltac unfold_normal_form := unfold normal_form.

Ltac unfold_release_like := unfold release_like.
Ltac unfold_oversized := unfold oversized.

Section VersionProperties.

Variable isdigit_nonascii : char -> bool.
Variable max_str_digits : nat.

Local Abbreviation isdigit := (isdigit isdigit_nonascii).
Local Abbreviation version_char := (version_char isdigit_nonascii).
Local Abbreviation normalize_version := (normalize_version isdigit_nonascii).
Local Abbreviation normal_form := (normal_form isdigit_nonascii).
Local Abbreviation release_like := (release_like isdigit_nonascii).
Local Abbreviation oversized := (oversized isdigit_nonascii max_str_digits).
Local Abbreviation parse := (parse max_str_digits).
Local Abbreviation compare_versions := (compare_versions isdigit_nonascii max_str_digits).

Lemma isdigit_dot : isdigit dot = false.
Proof. reflexivity. Qed.

Lemma is_ascii_digit_isdigit c : is_ascii_digit c = true -> isdigit c = true.
Proof.
  unfold is_ascii_digit. intros [?%N.leb_le ?%N.leb_le]%andb_true_iff.
  unfold_isdigit. rewrite (proj2 (N.ltb_lt c 128)) by lia.
  unfold is_ascii_digit. apply andb_true_iff. split; by apply N.leb_le.
Qed.

Lemma normalize_version_digits s :
  List.filter isdigit (normalize_version s) = List.filter isdigit s.
Proof.
  rewrite normalize_version_unfold. unfold strip_dots.
  rewrite filter_rstrip_dots, filter_lstrip_dots, filter_collapse by apply isdigit_dot.
  induction s as [|c s IH]; [done|].
  simpl. rewrite IH. destruct (isdigit c) eqn:Hc; simpl; rewrite ?Hc; [done|].
  destruct (is_dot c); simpl; by rewrite ?Hc.
Qed.

Lemma normal_form_parts t :
  normal_form t = true ->
  forallb version_char t = true /\ has_dot_run t = false /\
  starts_with_dot t = false /\ ends_with_dot t = false.
Proof.
  unfold_normal_form.
  intros [[[H1 H2]%andb_true_iff H3]%andb_true_iff H4]%andb_true_iff.
  by apply negb_true_iff in H2, H3, H4.
Qed.

Lemma normalize_version_nil s :
  normalize_version s = [] <-> Forall (fun c => isdigit c = false) s.
Proof.
  rewrite <- filter_nil_Forall, <- normalize_version_digits.
  split; [by intros ->|].
  destruct (normal_form_parts _ (normalize_version_normal_form isdigit_nonascii s))
    as (Hchars & _ & Hstart & _).
  destruct (normalize_version s) as [|c t]; [done|].
  simpl in *. apply andb_true_iff in Hchars as [Hc _]. revert Hc. unfold_version_char.
  rewrite Hstart, orb_false_r. by intros ->.
Qed.

(** X1: the result of [normalize_version] has only digits and dots,
    does not start or end with a dot, and has no two dots in a row. *)
Theorem normalize_version_shape (s : pystr) :
  Forall (fun c => isdigit c = true \/ c = dot) (normalize_version s) /\
  starts_with_dot (normalize_version s) = false /\
  ends_with_dot (normalize_version s) = false /\
  has_dot_run (normalize_version s) = false.
Proof.
  destruct (normal_form_parts _ (normalize_version_normal_form isdigit_nonascii s))
    as (Hchars & ? & ? & ?).
  split_and!; try done.
  apply Forall_forall. intros c Hc.
  rewrite forallb_forall in Hchars. specialize (Hchars c (proj1 (list_elem_of_In _ _) Hc)).
  revert Hchars. unfold_version_char. intros [?|?%is_dot_true]%orb_true_iff; eauto.
Qed.

(** X2: [normalize_version] keeps every digit of its argument, in order,
    adds none, and never returns a longer string. *)
Theorem normalize_version_keeps_digits (s : pystr) :
  List.filter isdigit (normalize_version s) = List.filter isdigit s /\
  (length (normalize_version s) <= length s)%nat.
Proof.
  split; [apply normalize_version_digits|].
  rewrite normalize_version_unfold. unfold strip_dots.
  etrans; [apply length_rstrip_dots|]. etrans; [apply length_lstrip_dots|].
  etrans; [apply length_collapse|].
  unfold replace_non_version_chars. by rewrite length_map.
Qed.

(** X3: [normalize_version] returns the empty string exactly for the
    strings without a digit. *)
Theorem normalize_version_empty_iff (s : pystr) :
  normalize_version s = [] <-> Forall (fun c => isdigit c = false) s.
Proof. apply normalize_version_nil. Qed.

Lemma pattern_matches_normalize s :
  is_Some (mapM release_component (split_dots (normalize_version s))) <->
  release_like s.
Proof.
  unfold_release_like. rewrite pattern_matches_iff.
  destruct (normal_form_parts _ (normalize_version_normal_form isdigit_nonascii s))
    as (Hchars & Hrun & Hstart & Hend).
  rewrite Hrun, Hstart, Hend.
  assert (Hne : normalize_version s <> [] <-> Exists (fun c => isdigit c = true) s)
    by by rewrite normalize_version_nil, Exists_not_Forall_bool.
  assert (Hascii :
    forallb (fun c => is_ascii_digit c || is_dot c) (normalize_version s) = true <->
    Forall (fun c => isdigit c = true -> is_ascii_digit c = true) s).
  { rewrite forallb_forall, Forall_forall. rewrite forallb_forall in Hchars. split.
    - intros H c Hc Hd.
      assert (Hin : c ∈ List.filter isdigit (normalize_version s))
        by by rewrite normalize_version_digits, elem_of_filter_bool.
      apply elem_of_filter_bool in Hin as [Hin _]. apply list_elem_of_In in Hin.
      destruct (orb_prop _ _ (H c Hin)) as [?|Hdot%is_dot_true]; [done|].
      subst c. by rewrite isdigit_dot in Hd.
    - intros H c Hc. specialize (Hchars c Hc). revert Hchars. unfold_version_char.
      intros [Hd|Hdot]%orb_true_iff; [|rewrite Hdot; apply orb_true_r].
      apply orb_true_iff. left. apply H; [|done].
      apply list_elem_of_In in Hc.
      assert (Hin : c ∈ List.filter isdigit (normalize_version s))
        by by rewrite elem_of_filter_bool.
      rewrite normalize_version_digits, elem_of_filter_bool in Hin. tauto. }
  rewrite Hne, Hascii. tauto.
Qed.

(** The three outcomes of parsing a normalised string. *)
Lemma parse_normalize_Returns s :
  (exists v, parse (normalize_version s) = Returns v) <->
  release_like s /\ oversized s = false.
Proof.
  rewrite <- pattern_matches_normalize. unfold_parse. unfold_oversized.
  destruct (mapM release_component (split_dots (normalize_version s))) as [cs|].
  - destruct (existsb _ _); split.
    + by intros [? ?].
    + by intros [_ ?].
    + intros _. split; [by eexists|done].
    + intros _. by eexists.
  - split; [by intros [? ?]|by intros [[? ?] _]].
Qed.

Lemma parse_normalize_ValueError s :
  parse (normalize_version s) = Raises ValueError_int_digits <->
  release_like s /\ oversized s = true.
Proof.
  rewrite <- pattern_matches_normalize. unfold_parse. unfold_oversized.
  destruct (mapM release_component (split_dots (normalize_version s))) as [cs|].
  - destruct (existsb _ _); split.
    + intros _. split; [by eexists|done].
    + done.
    + done.
    + by intros [_ ?].
  - split; [done|by intros [[? ?] _]].
Qed.

(** X4: [compare_versions] returns something other than "unknown"
    exactly when each string has a digit, no digit outside '0'..'9', and
    no component with more digits than [int()] accepts; it raises exactly
    when the installed version is of that form with such a component,
    or, the installed version being parsed, the latest one is. *)
Theorem compare_versions_known_iff (a b : pystr) :
  ((exists r, compare_versions a b = Returns r /\ r <> unknown) <->
   (release_like a /\ oversized a = false) /\
   (release_like b /\ oversized b = false)) /\
  ((exists e, compare_versions a b = Raises e) <->
   release_like a /\
   (oversized a = true \/ (release_like b /\ oversized b = true))).
Proof.
  split.
  - rewrite <- !parse_normalize_Returns. unfold_compare_versions. split.
    + intros (r & Hr & Hne).
      destruct (parse (normalize_version a)) as [va|[| | |]];
        try (by simplify_eq).
      destruct (parse (normalize_version b)) as [vb|[| | |]];
        try (by simplify_eq).
      split; by eexists.
    + intros [[va ->] [vb ->]]. eexists. split; [done|].
      by destruct (Version_lt va vb), (Version_gt va vb).
  - transitivity
      (parse (normalize_version a) = Raises ValueError_int_digits \/
       ((exists va, parse (normalize_version a) = Returns va) /\
        parse (normalize_version b) = Raises ValueError_int_digits)).
    + split.
      * intros [e He]. by apply compare_versions_raises_iff in He as [_ ?].
      * intros H. exists ValueError_int_digits.
        by apply compare_versions_raises_iff.
    + rewrite !parse_normalize_ValueError, parse_normalize_Returns.
      destruct (oversized a); split; tauto.
Qed.

(** X5: normalising the arguments first does not change the answer of
    [compare_versions]. *)
Theorem compare_versions_normalized (a b : pystr) :
  compare_versions (normalize_version a) (normalize_version b) = compare_versions a b.
Proof.
  unfold_compare_versions.
  by rewrite !(normalize_version_fixes _ _ (normalize_version_normal_form _ _)).
Qed.

(** X6: [update_available] is transitive: if [b] is an update of [a] and
    [c] an update of [b], then [c] is an update of [a]. *)
Theorem update_available_transitive (a b c : pystr) :
  compare_versions a b = Returns update_available ->
  compare_versions b c = Returns update_available ->
  compare_versions a c = Returns update_available.
Proof.
  unfold_compare_versions.
  destruct (parse (normalize_version a)) as [va|[| | |]]; try done.
  destruct (parse (normalize_version b)) as [vb|[| | |]]; try done.
  destruct (parse (normalize_version c)) as [vc|[| | |]];
    try (by destruct (Version_lt va vb), (Version_gt va vb)).
  unfold Version_lt.
  destruct (tuple_lt (_key va) (_key vb)) eqn:Hab;
    [|by destruct (Version_gt va vb)].
  destruct (tuple_lt (_key vb) (_key vc)) eqn:Hbc;
    [|by destruct (Version_gt vb vc)].
  by rewrite (tuple_lt_trans _ _ _ Hab Hbc).
Qed.

Lemma versions_equal_keys a b :
  compare_versions a b = Returns versions_equal <->
  exists va vb,
    parse (normalize_version a) = Returns va /\
    parse (normalize_version b) = Returns vb /\ _key va = _key vb.
Proof.
  unfold_compare_versions.
  destruct (parse (normalize_version a)) as [va|[| | |]];
    try (split; [done|by intros (? & ? & ? & _)]).
  destruct (parse (normalize_version b)) as [vb|[| | |]];
    try (split; [done|by intros (? & ? & _ & ? & _)]).
  unfold Version_lt, Version_gt.
  rewrite three_way_lexicographic.
  transitivity (lexicographic (_key va) (_key vb) = Eq).
  - destruct (lexicographic (_key va) (_key vb)); split; by try intros [= ?].
  - rewrite lexicographic_Eq. split; [by exists va, vb|].
    by intros (? & ? & [= <-] & [= <-] & ?).
Qed.

(** X7: versions that compare equal are interchangeable: the relation is
    symmetric, and either of two equal versions gives the same answer
    against any third one, on both sides. *)
Theorem versions_equal_interchangeable (a b : pystr) :
  compare_versions a b = Returns versions_equal ->
  compare_versions b a = Returns versions_equal /\
  (forall c, compare_versions a c = compare_versions b c) /\
  (forall c, compare_versions c a = compare_versions c b).
Proof.
  intros (va & vb & Ha & Hb & Hkey)%versions_equal_keys.
  split; [apply versions_equal_keys; by exists vb, va|].
  split; intros c; unfold_compare_versions; rewrite Ha, Hb;
    unfold Version_lt, Version_gt; by rewrite Hkey.
Qed.

(** X8: two parsed versions compare equal exactly when their release
    tuples agree up to trailing zeros; so any number of zero components
    added at the end ("1.2" and "1.2.0.0") makes no difference. *)
Theorem versions_equal_trailing_zeros (a b : pystr) (va vb : Version) :
  parse (normalize_version a) = Returns va ->
  parse (normalize_version b) = Returns vb ->
  (compare_versions a b = Returns versions_equal <->
   strip_trailing_zeros (release va) = strip_trailing_zeros (release vb)) /\
  (forall n, release vb = release va ++ replicate n 0 ->
             compare_versions a b = Returns versions_equal).
Proof.
  intros Ha Hb.
  assert (Hiff : compare_versions a b = Returns versions_equal <->
                 strip_trailing_zeros (release va) = strip_trailing_zeros (release vb)).
  { rewrite versions_equal_keys. split.
    - intros (? & ? & Ha' & Hb' & ?). rewrite Ha in Ha'. rewrite Hb in Hb'.
      by simplify_eq.
    - intros ?. by exists va, vb. }
  split; [done|].
  intros n Hn. apply Hiff. by rewrite Hn, strip_trailing_zeros_app.
Qed.

(** X30: swapping the arguments exchanges "update_available" and
    "up_to_date"; and when both calls return, one returns "unknown"
    exactly when the other does. *)
Theorem compare_versions_swap_returned (a b : pystr) :
  (compare_versions a b = Returns update_available <->
   compare_versions b a = Returns up_to_date) /\
  (forall r r',
     compare_versions a b = Returns r -> compare_versions b a = Returns r' ->
     (r = unknown <-> r' = unknown)).
Proof.
  split; [apply update_available_swap|].
  intros r r'. unfold_compare_versions.
  destruct (parse (normalize_version a)) as [va|[| | |]],
           (parse (normalize_version b)) as [vb|[| | |]]; try done.
  - intros [= <-] [= <-].
    by destruct (Version_lt va vb), (Version_gt va vb),
                (Version_lt vb va), (Version_gt vb va).
  - by intros [= <-] [= <-].
  - by intros [= <-] [= <-].
  - by intros [= <-] [= <-].
Qed.

End VersionProperties.

Lemma update_available_transitive_witness :
  compare_versions (fun _ => false) 4300 (of_string "1.0") (of_string "v2 (build 7)")
  = Returns update_available.
Proof.
  exact (update_available_transitive (fun _ => false) 4300
           (of_string "1.0") (of_string "1.5.3") (of_string "v2 (build 7)")
           eq_refl eq_refl).
Defined.

Lemma versions_equal_interchangeable_witness :
  compare_versions (fun _ => false) 4300 (of_string "v1") (of_string "1.0")
  = Returns versions_equal.
Proof.
  exact (proj1 (versions_equal_interchangeable (fun _ => false) 4300
                  (of_string "1.0") (of_string "v1") eq_refl)).
Defined.

Lemma versions_equal_trailing_zeros_witness :
  compare_versions (fun _ => false) 4300 (of_string "1.2") (of_string "1.2.0.0")
  = Returns versions_equal.
Proof.
  exact (proj2 (versions_equal_trailing_zeros (fun _ => false) 4300
                  (of_string "1.2") (of_string "1.2.0.0")
                  {| release := [1; 2] |} {| release := [1; 2; 0; 0] |}
                  eq_refl eq_refl) 2%nat eq_refl).
Defined.

(** * Further properties of the classification loop *)

Ltac unfold_find_updates := unfold find_updates.

Section ClassifyProperties.

Variable isdigit_nonascii : char -> bool.
Variable max_str_digits : nat.

Local Abbreviation compare_versions := (compare_versions isdigit_nonascii max_str_digits).
Local Abbreviation classify := (classify isdigit_nonascii max_str_digits).
Local Abbreviation find_updates := (find_updates isdigit_nonascii max_str_digits).

Lemma str_contains_false_startswith s p :
  str_contains s p = false -> startswith s p = false.
Proof.
  intros Hc. destruct (startswith s p) eqn:Hs; [|done].
  by rewrite (startswith_str_contains _ _ Hs) in Hc.
Qed.

(** When one iteration of the loop raises. *)
Lemma classify_raises_iff (e : list pystr) :
  (exists ex, classify e = Raises ex) <->
  (4 < length e)%nat \/
  exists name ident installed latest,
    e = [name; ident; installed; latest] /\
    installed <> [] /\ latest <> [] /\
    str_contains installed latest = false /\
    compare_versions installed latest = Raises ValueError_int_digits.
Proof.
  destruct e as [|a [|b [|c [|d [|x e]]]]].
  1-4: split; [by intros [? ?]|intros [?|(? & ? & ? & ? & ? & _)]; [simpl in *; lia|done]].
  - rewrite classify_four. split.
    + intros [ex Hex]. right. exists a, b, c, d.
      destruct c as [|c0 c]; [done|]. destruct d as [|d0 d]; [done|].
      cbn [is_empty orb] in Hex.
      destruct (str_contains (c0 :: c) (d0 :: d)) eqn:Hc; [done|]. cbn [orb] in Hex.
      destruct (startswith (c0 :: c) (d0 :: d)); [done|].
      destruct (compare_versions (c0 :: c) (d0 :: d)) as [r|ex'] eqn:Hcmp; [done|].
      split_and!; try done.
      by apply compare_versions_raises_iff in Hcmp as [-> _].
    + intros [?|(? & ? & inst & lat & [= -> -> -> ->] & Hi & Hl & Hc & Hcmp)];
        [simpl in *; lia|].
      destruct inst; [done|]. destruct lat; [done|]. cbn [is_empty orb].
      rewrite Hc, (str_contains_false_startswith _ _ Hc), Hcmp. by eexists.
  - split; [intros _; left; simpl; lia|intros _; by eexists].
Qed.

Lemma appends_iff d : appends d = true <-> d = compared update_available.
Proof. split; [apply appends_update|by intros ->]. Qed.

(** X9: when the loop runs to its end, the update list is exactly the
    entries classified as [update_available], in their order: no update
    is lost and nothing else is reported. *)
Theorem find_updates_is_filter (app_data updates : list (list pystr)) :
  find_updates app_data = Returns updates ->
  updates = filter (fun e => classify e = Returns (compared update_available)) app_data.
Proof.
  revert updates. induction app_data as [|e app_data IH]; intros updates; simpl.
  - by intros [= <-].
  - destruct (classify e) as [d|] eqn:He; [|done]. simpl.
    destruct (find_updates app_data) as [us|]; [|done]. simpl.
    intros [= <-]. rewrite filter_cons, (IH us eq_refl).
    destruct (appends d) eqn:Hd.
    + apply appends_iff in Hd as ->. by rewrite decide_True.
    + rewrite decide_False; [done|]. rewrite He. by intros [= ->].
Qed.

(** X10: the loop raises exactly when some entry has more than four
    fields (the unpacking raises), or has four fields, non-empty
    versions that pass the pre-filter, and a comparison that raises the
    [ValueError] of [int()]; shorter entries are passed over. *)
Theorem find_updates_fails_iff (app_data : list (list pystr)) :
  (exists ex, find_updates app_data = Raises ex) <->
  Exists (fun e : list pystr =>
            (4 < length e)%nat \/
            exists name ident installed latest,
              e = [name; ident; installed; latest] /\
              installed <> [] /\ latest <> [] /\
              str_contains installed latest = false /\
              compare_versions installed latest = Raises ValueError_int_digits)
    app_data.
Proof.
  induction app_data as [|e app_data IH]; simpl.
  - split; [by intros [? ?]|by intros ?%Exists_nil].
  - rewrite Exists_cons, <- IH, <- classify_raises_iff.
    destruct (classify e) as [d|ex]; simpl.
    + destruct (find_updates app_data) as [us|ex']; simpl.
      * split; [by intros [? ?]|]. by intros [[? ?]|[? ?]].
      * split; [intros _; right; by eexists|intros _; by eexists].
    + split; [intros _; left; by eexists|intros _; by eexists].
Qed.

(** X11: every reported update has four fields, non-empty installed and
    latest versions, a latest version that does not occur in the
    installed one, and a comparison that says [update_available]. *)
Theorem reported_update_sound (app_data updates : list (list pystr)) (e : list pystr) :
  find_updates app_data = Returns updates ->
  e ∈ updates ->
  e ∈ app_data /\
  exists name ident installed latest,
    e = [name; ident; installed; latest] /\
    installed <> [] /\ latest <> [] /\
    str_contains installed latest = false /\
    compare_versions installed latest = Returns update_available.
Proof.
  intros Hu He. split.
  - eapply elem_of_sublist; [done|by eapply find_updates_sublist].
  - pose proof (find_updates_classified _ _ _ _ _ Hu He) as Hc.
    destruct e as [|name [|ident [|installed [|latest [|x e]]]]]; try done.
    exists name, ident, installed, latest. rewrite classify_four in Hc.
    destruct installed, latest; try done. cbn [is_empty orb] in Hc.
    destruct (str_contains _ _); [done|]. cbn [orb] in Hc.
    destruct (startswith _ _); [done|].
    split_and!; try done.
    destruct (compare_versions _ _) as [r|]; [|done]. simpl in Hc. congruence.
Qed.

End ClassifyProperties.

Lemma find_updates_is_filter_witness :
  [[of_string "Foo"; of_string "com.foo"; of_string "1.0.0"; of_string "1.1.0"]]
  = filter (fun e => classify (fun _ => false) 4300 e
                     = Returns (compared update_available))
      [[of_string "Bar"; of_string "com.bar"; of_string "2.0.0"; of_string "2.0.0"];
       [of_string "Baz"; of_string "com.baz"; of_string "3"];
       [of_string "Foo"; of_string "com.foo"; of_string "1.0.0"; of_string "1.1.0"]].
Proof.
  apply (find_updates_is_filter (fun _ => false) 4300). reflexivity.
Defined.

Lemma reported_update_sound_witness :
  [of_string "Foo"; of_string "com.foo"; of_string "1.0.0"; of_string "1.1.0"]
    ∈ [[of_string "Bar"; of_string "com.bar"; of_string "2.0.0"; of_string "2.0.0"];
       [of_string "Foo"; of_string "com.foo"; of_string "1.0.0"; of_string "1.1.0"]].
Proof.
  apply (reported_update_sound (fun _ => false) 4300 _
           [[of_string "Foo"; of_string "com.foo"; of_string "1.0.0"; of_string "1.1.0"]]).
  - reflexivity.
  - apply list_elem_of_here.
Defined.

(** * Properties of load_all_info_plists *)

Ltac unfold_load_entry := unfold load_entry.
Ltac unfold_load_step := unfold load_step.
Ltac unfold_load_all := unfold load_all_info_plists.

Lemma startswith_app s t : startswith (s ++ t) s = true.
Proof. apply startswith_prefix. by exists t. Qed.

Lemma str_contains_app pre s post : str_contains (pre ++ s ++ post) s = true.
Proof. apply str_contains_infix. by exists pre, post. Qed.

Lemma is_empty_true (s : pystr) : is_empty s = true <-> s = [].
Proof. by destruct s. Qed.

Lemma is_empty_false (s : pystr) : is_empty s = false <-> s <> [].
Proof. by destruct s. Qed.





Section LoadProperties.

Variable isspace_nonascii : char -> bool.
Variable isdigit_nonascii : char -> bool.
Variable max_str_digits : nat.
Variable lower : pystr -> pystr.

Local Abbreviation get_mdls_version := (get_mdls_version isspace_nonascii).
Local Abbreviation load_step := (load_step isspace_nonascii).
Local Abbreviation load_all_info_plists := (load_all_info_plists isspace_nonascii).
Local Abbreviation classify := (classify isdigit_nonascii max_str_digits).

Implicit Types (ignore_app_names : list pystr).
Implicit Types (app_name_mappings installed_versions : gmap (list N) (list N)).
Implicit Types (plist : option (gmap (list N) (list N))).
Implicit Types (completed : list (option pystr * option (gmap (list N) (list N)))).

(** What an entry that was built looks like. *)
Lemma load_entry_Some ignore_app_names app_name_mappings mdls_version plist
    bundle_executable bundle_identifier installed_version :
  load_entry ignore_app_names app_name_mappings mdls_version plist
  = Some (bundle_executable, bundle_identifier, installed_version) ->
  exists raw bundle_version bundle_short_version,
    parse_info_plist plist
    = (raw, bundle_identifier, bundle_version, bundle_short_version) /\
    raw <> [] /\ bundle_identifier <> [] /\ (raw ∉ ignore_app_names) /\
    bundle_executable = default raw (app_name_mappings !! raw) /\
    ((installed_version = mdls_version /\
      (bundle_version = [] \/ bundle_version = mdls_version))
     \/ (exists build_version,
           build_version <> [] /\ build_version <> mdls_version /\
           (build_version = bundle_version \/
            (build_version = bundle_short_version /\
             (bundle_version = [] \/ bundle_version = mdls_version))) /\
           installed_version
           = mdls_version ++ of_string " (" ++ build_version ++ of_string ")")).
Proof.
  unfold_load_entry.
  destruct (parse_info_plist plist) as [[[raw ident] bver] bshort].
  destruct (is_empty raw) eqn:Hraw; [done|].
  destruct (is_empty ident) eqn:Hident; [done|]. cbn [orb].
  apply is_empty_false in Hraw, Hident.
  case_bool_decide as Hign; [done|].
  intros [= <- <- <-]. exists raw, bver, bshort.
  split_and!; try done.
  destruct (is_empty bver) eqn:Hbver; cbn [negb andb].
  - apply is_empty_true in Hbver as ->.
    destruct (is_empty bshort) eqn:Hbshort; cbn [negb andb].
    + left. split; [done|by left].
    + apply is_empty_false in Hbshort.
      case_bool_decide as Hs; cbn [negb].
      * left. split; [done|by left].
      * right. exists bshort. rewrite (proj2 (is_empty_false bshort) Hbshort).
        split_and!; try done. right. split; [done|by left].
  - apply is_empty_false in Hbver.
    case_bool_decide as Hv; cbn [negb].
    + subst bver.
      destruct (is_empty bshort) eqn:Hbshort; cbn [negb andb].
      * left. split; [done|by right].
      * apply is_empty_false in Hbshort.
        case_bool_decide as Hs; cbn [negb].
        -- left. split; [done|by right].
        -- right. exists bshort. rewrite (proj2 (is_empty_false bshort) Hbshort).
           split_and!; try done. right. split; [done|by right].
    + right. exists bver. rewrite (proj2 (is_empty_false bver) Hbver).
      split_and!; try done. by left.
Qed.

(** X12: the installed version of an entry always starts with the
    version of the metadata query: it is that version, or that version
    followed by a non-empty build number, different from it, in
    parentheses. *)
Theorem load_entry_installed_version
    ignore_app_names app_name_mappings (mdls_version : pystr) plist
    (bundle_executable bundle_identifier installed_version : pystr) :
  load_entry ignore_app_names app_name_mappings mdls_version plist
  = Some (bundle_executable, bundle_identifier, installed_version) ->
  startswith installed_version mdls_version = true /\
  (installed_version = mdls_version \/
   exists build_version,
     build_version <> [] /\ build_version <> mdls_version /\
     installed_version = mdls_version ++ of_string " (" ++ build_version ++ of_string ")").
Proof.
  intros (raw & bver & bshort & _ & _ & _ & _ & _ & Hinst)%load_entry_Some.
  destruct Hinst as [[-> _]|(build & ? & ? & _ & ->)].
  - split; [|by left]. rewrite <- (app_nil_r mdls_version) at 1. apply startswith_app.
  - split; [apply startswith_app|]. right. by exists build.
Qed.

(** X13: an application is dropped exactly when its descriptor gives no
    executable or no identifier (so also when the descriptor is missing
    or invalid), or names an ignored executable; the ignore list is
    matched against the name in the descriptor, whatever the renaming
    would make of it. *)
Theorem load_entry_dropped_iff
    ignore_app_names app_name_mappings (mdls_version : pystr) plist
    (raw bundle_identifier bundle_version bundle_short_version : pystr) :
  parse_info_plist plist
  = (raw, bundle_identifier, bundle_version, bundle_short_version) ->
  load_entry ignore_app_names app_name_mappings mdls_version plist = None <->
  raw = [] \/ bundle_identifier = [] \/ raw ∈ ignore_app_names.
Proof.
  intros Hplist. unfold_load_entry. rewrite Hplist.
  destruct raw as [|c raw]; [by split; [left|]|].
  destruct bundle_identifier as [|d ident]; [by split; [right; left|]|].
  cbn [is_empty orb]. case_bool_decide as Hign.
  - split; [by right; right|done].
  - split; [done|]. by intros [?|[?|?]].
Qed.

(** X14: if the catalog's latest version is the version of the metadata
    query, or the [CFBundleVersion] of the descriptor, the entry leaves
    the classification on the pre-filter branch: such an application is
    never compared and never reported. *)
Theorem catalog_version_of_bundle_skipped
    ignore_app_names app_name_mappings (mdls_version : pystr)
    (plist_data : gmap (list N) (list N))
    (bundle_executable bundle_identifier installed_version latest_version : pystr) :
  load_entry ignore_app_names app_name_mappings mdls_version (Some plist_data)
  = Some (bundle_executable, bundle_identifier, installed_version) ->
  latest_version <> [] ->
  latest_version = mdls_version \/
  latest_version = plist_get plist_data "CFBundleVersion" ->
  classify [bundle_executable; bundle_identifier; installed_version; latest_version]
  = Returns skip_prefilter.
Proof.
  intros (raw & bver & bshort & Hplist & _ & _ & _ & _ & Hinst)%load_entry_Some Hne Hlatest.
  injection Hplist as _ _ <- _.
  assert (Hsub : str_contains installed_version latest_version = true).
  { destruct Hinst as [[-> Hb]|(build & ? & ? & Hbuild & ->)].
    - assert (latest_version = mdls_version) as ->
        by (destruct Hlatest as [?|?], Hb as [?|?]; congruence).
      apply startswith_str_contains.
      rewrite <- (app_nil_r mdls_version) at 1. apply startswith_app.
    - assert (latest_version = mdls_version \/ latest_version = build) as [->| ->].
      { destruct Hlatest as [?|?]; [by left|].
        destruct Hbuild as [?|[_ [?|?]]]; [right|exfalso|left]; congruence. }
      + apply startswith_str_contains, startswith_app.
      + rewrite app_assoc. apply str_contains_app. }
  assert (Hinst' : installed_version <> []).
  { intros ->. destruct latest_version; [done|]. by cbn in Hsub. }
  rewrite classify_four.
  rewrite (proj2 (is_empty_false _) Hinst'), (proj2 (is_empty_false _) Hne).
  cbn [orb]. by rewrite Hsub.
Qed.

(** One step of the loop either leaves the state alone or records one
    entry, in the dictionary and at the end of the list. *)
Lemma load_step_cases ignore_app_names app_name_mappings
    (st : gmap (list N) (list N) * list (list pystr)) c :
  load_step ignore_app_names app_name_mappings st c = st \/
  exists exe ident inst,
    ident <> [] /\
    load_step ignore_app_names app_name_mappings st c
    = (<[ident := inst]> st.1, st.2 ++ [[exe; ident; inst]]).
Proof.
  unfold_load_step.
  destruct (load_entry _ _ _ _) as [[[exe ident] inst]|] eqn:He; [|by left].
  right. exists exe, ident, inst. split; [|done].
  by apply load_entry_Some in He as (? & ? & ? & _ & _ & ? & _).
Qed.

Lemma load_all_shape
    completed ignore_app_names app_name_mappings installed_versions :
  Forall (fun e : list pystr =>
            exists exe ident inst, e = [exe; ident; inst] /\ ident <> [])
    (load_all_info_plists completed ignore_app_names app_name_mappings
       installed_versions).2.
Proof.
  unfold_load_all. induction completed as [|c completed IH] using rev_ind.
  - constructor.
  - rewrite foldl_snoc.
    destruct (load_step_cases ignore_app_names app_name_mappings
                (foldl (load_step ignore_app_names app_name_mappings)
                   (installed_versions, []) completed) c)
      as [->|(exe & ident & inst & ? & ->)]; [done|].
    apply Forall_app. split; [done|]. constructor; [|constructor]. by exists exe, ident, inst.
Qed.

(** X15: every entry of the list that [load_all_info_plists] returns has
    exactly the three fields executable, identifier and installed
    version, and its identifier is not empty. *)
Theorem load_all_entries_well_formed
    completed ignore_app_names app_name_mappings installed_versions :
  Forall (fun e : list pystr =>
            exists exe ident inst, e = [exe; ident; inst] /\ ident <> [])
    (load_all_info_plists completed ignore_app_names app_name_mappings
       installed_versions).2.
Proof. apply load_all_shape. Qed.




(** X17: after the loop, the dictionary [installed_versions] holds, for
    the identifier of every entry of the list, the installed version of
    an entry with that identifier; every other key is as it was. *)
Theorem installed_versions_recorded
    completed ignore_app_names app_name_mappings installed_versions :
  (forall exe ident inst,
     [exe; ident; inst]
       ∈ (load_all_info_plists completed ignore_app_names app_name_mappings
            installed_versions).2 ->
     exists exe' inst',
       [exe'; ident; inst']
         ∈ (load_all_info_plists completed ignore_app_names app_name_mappings
              installed_versions).2 /\
       (load_all_info_plists completed ignore_app_names app_name_mappings
          installed_versions).1 !! ident = Some inst') /\
  (forall key : pystr,
     (forall exe inst,
        [exe; key; inst]
          ∉ (load_all_info_plists completed ignore_app_names app_name_mappings
               installed_versions).2) ->
     (load_all_info_plists completed ignore_app_names app_name_mappings
        installed_versions).1 !! key = installed_versions !! key).
Proof.
  unfold_load_all. induction completed as [|c completed [IH1 IH2]] using rev_ind.
  - split; [by intros ? ? ? ?%elem_of_nil|done].
  - rewrite foldl_snoc.
    destruct (load_step_cases ignore_app_names app_name_mappings
                (foldl (load_step ignore_app_names app_name_mappings)
                   (installed_versions, []) completed) c)
      as [->|(exe0 & ident0 & inst0 & _ & ->)]; [done|].
    set (st := foldl (load_step ignore_app_names app_name_mappings)
                 (installed_versions, []) completed) in *.
    cbn [fst snd]. split.
    + intros exe ident inst Hin.
      destruct (decide (ident = ident0)) as [->|Hne].
      * exists exe0, inst0. split; [|apply lookup_insert_eq].
        apply elem_of_app. right. apply list_elem_of_here.
      * apply elem_of_app in Hin as [Hin|Hin%list_elem_of_singleton]; [|congruence].
        destruct (IH1 _ _ _ Hin) as (exe' & inst' & Hin' & Hl).
        exists exe', inst'. split; [apply elem_of_app; by left|].
        by rewrite lookup_insert_ne.
    + intros key Hkey.
      assert (key <> ident0).
      { intros ->. apply (Hkey exe0 inst0).
        apply elem_of_app. right. apply list_elem_of_here. }
      rewrite lookup_insert_ne by done. apply IH2.
      intros exe inst Hin. apply (Hkey exe inst). apply elem_of_app. by left.
Qed.

End LoadProperties.

Lemma load_entry_installed_version_witness :
  startswith (of_string "12.3 (4567)") (of_string "12.3") = true.
Proof.
  apply (load_entry_installed_version [] ∅ (of_string "12.3") (Some foo_plist)
           (of_string "Foo") (of_string "com.foo") (of_string "12.3 (4567)")).
  vm_compute. reflexivity.
Defined.

Lemma load_entry_dropped_iff_witness :
  load_entry [of_string "Foo"] {[of_string "Foo" := of_string "Bar"]}
    (of_string "12.3") (Some foo_plist) = None.
Proof.
  apply (load_entry_dropped_iff [of_string "Foo"] {[of_string "Foo" := of_string "Bar"]}
           (of_string "12.3") (Some foo_plist)
           (of_string "Foo") (of_string "com.foo") (of_string "4567") (of_string "12.3")).
  - vm_compute. reflexivity.
  - right. right. apply list_elem_of_here.
Defined.

Lemma catalog_version_of_bundle_skipped_witness :
  classify (fun _ => false) 4300
    [of_string "Foo"; of_string "com.foo"; of_string "12.3 (4567)"; of_string "4567"]
  = Returns skip_prefilter.
Proof.
  apply (catalog_version_of_bundle_skipped (fun _ => false) 4300 [] ∅ (of_string "12.3")
           foo_plist (of_string "Foo") (of_string "com.foo")
           (of_string "12.3 (4567)") (of_string "4567")).
  - vm_compute. reflexivity.
  - discriminate.
  - right. vm_compute. reflexivity.
Defined.

(** * Further properties of the admission gate *)

Section GateProperties.

Import Gate.
Local Open Scope nat_scope.

Lemma step_lookup st e st' i :
  step st e = Some st' ->
  tasks st' !! i = tasks st !! i \/
  (e = Acquire i /\ tasks st !! i = Some waiting /\ tasks st' !! i = Some in_flight) \/
  (e = Release i /\ tasks st !! i = Some in_flight /\ tasks st' !! i = Some settled).
Proof.
  destruct e as [j|j]; simpl.
  - destruct (tasks st !! j) as [[| |]|] eqn:Hj; try done.
    destruct (sem_value st); [done|]. intros [= <-]. simpl.
    destruct (decide (j = i)) as [->|Hne].
    + right. left. split_and!; try done.
      apply list_lookup_insert_eq. by eapply lookup_lt_Some.
    + left. by apply list_lookup_insert_ne.
  - destruct (tasks st !! j) as [[| |]|] eqn:Hj; try done.
    intros [= <-]. simpl.
    destruct (decide (j = i)) as [->|Hne].
    + right. right. split_and!; try done.
      apply list_lookup_insert_eq. by eapply lookup_lt_Some.
    + left. by apply list_lookup_insert_ne.
Qed.

Lemma step_length st e st' :
  step st e = Some st' -> length (tasks st') = length (tasks st).
Proof.
  destruct e as [j|j]; simpl.
  - destruct (tasks st !! j) as [[| |]|]; try done.
    destruct (sem_value st); [done|]. intros [= <-]. simpl. apply length_insert.
  - destruct (tasks st !! j) as [[| |]|]; try done.
    intros [= <-]. simpl. apply length_insert.
Qed.

Lemma run_length schedule st st' :
  run st schedule = Some st' -> length (tasks st') = length (tasks st).
Proof.
  revert st. induction schedule as [|e schedule IH]; intros st; simpl.
  - by intros [= <-].
  - destruct (step st e) as [st1|] eqn:He; [|done]. simpl.
    intros Hrun. rewrite (IH _ Hrun). by eapply step_length.
Qed.

Lemma count_in_flight_zero ts :
  count_in_flight ts = 0 <-> Forall (fun t => t <> in_flight) ts.
Proof.
  induction ts as [|t ts IH]; [by split; [constructor|]|].
  rewrite count_in_flight_cons, Forall_cons, <- IH. unfold in_flight_bit.
  destruct (decide (t = in_flight)); split; try lia; tauto.
Qed.

(** X18: when every task is settled, the semaphore is back at the value
    it was created with: no slot is lost; and the tasks are those of the
    entries, one each. *)
Theorem gate_released_at_end
    (limit : nat) (app_data : list (list pystr)) (schedule : list event) (st : state) :
  run (init limit app_data) schedule = Some st ->
  length (tasks st) = length app_data /\
  (Forall (fun t => t = settled) (tasks st) -> sem_value st = limit).
Proof.
  intros Hrun. split.
  - rewrite (run_length _ _ _ Hrun). simpl. apply length_replicate.
  - intros Hall.
    assert (Hinv : sem_value st + count_in_flight (tasks st) = limit).
    { apply (run_invariant _ _ _ _ Hrun). simpl. rewrite count_in_flight_init. lia. }
    assert (count_in_flight (tasks st) = 0); [|lia].
    apply count_in_flight_zero. eapply Forall_impl; [exact Hall|]. by intros ? ->.
Qed.

(** X19: with a positive limit the gate cannot block for ever: in every
    state the tasks can reach, as long as a task is not settled, some
    task can take its next step. *)
Theorem gate_progress
    (limit : nat) (app_data : list (list pystr)) (schedule : list event) (st : state) :
  0 < limit ->
  run (init limit app_data) schedule = Some st ->
  ~ Forall (fun t => t = settled) (tasks st) ->
  exists e st', step st e = Some st'.
Proof.
  intros Hlimit Hrun Hnot.
  assert (Hinv : sem_value st + count_in_flight (tasks st) = limit).
  { apply (run_invariant _ _ _ _ Hrun). simpl. rewrite count_in_flight_init. lia. }
  destruct (decide (Exists (fun t => t = in_flight) (tasks st))) as [Hex|Hnone].
  - apply Exists_exists in Hex as (t & [i Hi]%list_elem_of_lookup & ->).
    exists (Release i). simpl. rewrite Hi. by eexists.
  - apply not_Forall_Exists in Hnot; [|apply _].
    apply Exists_exists in Hnot as (t & [i Hi]%list_elem_of_lookup & Ht).
    assert (Hzero : count_in_flight (tasks st) = 0).
    { apply count_in_flight_zero, Forall_forall. intros u Hu ->.
      apply Hnone, Exists_exists. eauto. }
    assert (t = waiting) as ->.
    { destruct t; try done.
      - destruct Hnone. apply Exists_exists. exists in_flight. split; [|done].
        apply list_elem_of_lookup. eauto.
      - by destruct Ht. }
    exists (Acquire i). simpl. rewrite Hi.
    destruct (sem_value st) as [|v]; [lia|]. by eexists.
Qed.

Lemma run_app st s1 s2 : run st (s1 ++ s2) = st' ← run st s1; run st' s2.
Proof.
  revert st. induction s1 as [|e s1 IH]; intros st; simpl; [done|].
  destruct (step st e); simpl; [apply IH|done].
Qed.

Lemma serial_schedule_runs limit m k :
  0 < limit ->
  run {| sem_value := limit; tasks := replicate k settled ++ replicate m waiting |}
    (serial_schedule k m)
  = Some {| sem_value := limit; tasks := replicate (k + m) settled |}.
Proof.
  intros Hlimit. revert k. induction m as [|m IH]; intros k.
  - simpl. by rewrite app_nil_r, Nat.add_0_r.
  - destruct limit as [|v]; [lia|].
    assert (Hk : (replicate k settled ++ replicate (S m) waiting) !! k = Some waiting).
    { rewrite lookup_app_r by by rewrite length_replicate.
      by rewrite length_replicate, Nat.sub_diag. }
    assert (Hins : forall t,
      <[k := t]> (replicate k settled ++ replicate (S m) waiting)
      = replicate k settled ++ t :: replicate m waiting).
    { intros t. rewrite insert_app_r_alt by by rewrite length_replicate.
      by rewrite length_replicate, Nat.sub_diag. }
    unfold serial_schedule. cbn [seq flat_map]. cbn [app run step sem_value tasks].
    rewrite Hk. cbn [mbind option_bind run step sem_value tasks].
    rewrite Hins.
    assert (Hk' : (replicate k settled ++ in_flight :: replicate m waiting) !! k
                  = Some in_flight).
    { rewrite lookup_app_r by by rewrite length_replicate.
      by rewrite length_replicate, Nat.sub_diag. }
    rewrite Hk'. cbn [mbind option_bind].
    assert (Hins' :
      <[k := settled]> (replicate k settled ++ in_flight :: replicate m waiting)
      = replicate (S k) settled ++ replicate m waiting).
    { rewrite insert_app_r_alt by by rewrite length_replicate.
      rewrite length_replicate, Nat.sub_diag.
      change (<[0 := settled]> (in_flight :: replicate m waiting))
        with (settled :: replicate m waiting).
      by rewrite replicate_S_end, <- app_assoc. }
    rewrite Hins'. fold (serial_schedule (S k) m). rewrite IH.
    by replace (S k + m) with (k + S m) by lia.
Qed.

(** X20: with a positive limit the lookups can all be done: running the
    tasks one after the other is a schedule of the gate, and it ends
    with every task settled and the semaphore at its limit. *)
Theorem gate_serial_completes (limit : nat) (app_data : list (list pystr)) :
  0 < limit ->
  run (init limit app_data) (serial_schedule 0 (length app_data))
  = Some {| sem_value := limit; tasks := replicate (length app_data) settled |}.
Proof. intros Hlimit. by apply (serial_schedule_runs limit (length app_data) 0). Qed.

Lemma step_rank st e st' i t :
  step st e = Some st' -> tasks st !! i = Some t ->
  exists t', tasks st' !! i = Some t' /\ task_rank t <= task_rank t'.
Proof.
  intros Hstep Hi.
  destruct (step_lookup _ _ _ i Hstep) as [Heq|[(_ & Hw & Hf)|(_ & Hf & Hs)]].
  - exists t. by rewrite Heq.
  - exists in_flight. split; [done|]. rewrite Hi in Hw. injection Hw as ->. simpl. lia.
  - exists settled. split; [done|]. rewrite Hi in Hf. injection Hf as ->. simpl. lia.
Qed.

Lemma no_later_event schedule st st' i t :
  run st schedule = Some st' -> tasks st !! i = Some t ->
  (1 <= task_rank t -> Acquire i ∉ schedule) /\
  (2 <= task_rank t -> Release i ∉ schedule).
Proof.
  revert st t. induction schedule as [|e schedule IH]; intros st t; simpl.
  - intros _ _. split; intros _ ?%elem_of_nil; done.
  - destruct (step st e) as [st1|] eqn:He; [|done]. simpl. intros Hrun Hi.
    destruct (step_rank _ _ _ i t He Hi) as (t1 & Hi1 & Hle).
    destruct (IH st1 t1 Hrun Hi1) as [IHa IHr].
    split; intros Hrank [<-|?]%elem_of_cons.
    + simpl in He. rewrite Hi in He. destruct t; simpl in *; try done; lia.
    + apply IHa; [lia|done].
    + simpl in He. rewrite Hi in He. destruct t; simpl in *; try done; lia.
    + apply IHr; [lia|done].
Qed.

Lemma filter_not_elem_of (e : event) schedule :
  e ∉ schedule -> filter (fun x => x = e) schedule = [].
Proof.
  induction schedule as [|x schedule IH]; [done|].
  intros Hnot. rewrite filter_cons. rewrite not_elem_of_cons in Hnot.
  destruct Hnot as [Hne ?]. rewrite decide_False by congruence. by apply IH.
Qed.

(** X21: in every run of the gate a task enters the semaphore at most
    once and leaves it at most once: no entry is looked up twice. *)
Theorem task_runs_once (schedule : list event) (st st' : state) (i : nat) :
  run st schedule = Some st' ->
  length (filter (fun e => e = Acquire i) schedule) <= 1 /\
  length (filter (fun e => e = Release i) schedule) <= 1.
Proof.
  revert st. induction schedule as [|e schedule IH]; intros st; simpl.
  - intros _. simpl. lia.
  - destruct (step st e) as [st1|] eqn:He; [|done]. simpl. intros Hrun.
    destruct (IH st1 Hrun) as [IHa IHr]. rewrite !filter_cons.
    destruct (decide (e = Acquire i)) as [->|Hna].
    + rewrite decide_False by done. split; [|done].
      simpl in He. destruct (tasks st !! i) as [[| |]|] eqn:Hi; try done.
      destruct (sem_value st) as [|value]; [done|]. injection He as <-.
      assert (Hi1 : tasks {| sem_value := value;
                             tasks := <[i := in_flight]> (tasks st) |} !! i
                    = Some in_flight).
      { simpl. apply list_lookup_insert_eq. by eapply lookup_lt_Some. }
      destruct (no_later_event _ _ _ i _ Hrun Hi1) as [Ha _].
      rewrite (filter_not_elem_of (Acquire i)) by (apply Ha; simpl; lia).
      simpl. lia.
    + destruct (decide (e = Release i)) as [->|Hnr]; [|done].
      split; [done|].
      simpl in He. destruct (tasks st !! i) as [[| |]|] eqn:Hi; try done.
      injection He as <-.
      assert (Hi1 : tasks {| sem_value := S (sem_value st);
                             tasks := <[i := settled]> (tasks st) |} !! i
                    = Some settled).
      { simpl. apply list_lookup_insert_eq. by eapply lookup_lt_Some. }
      destruct (no_later_event _ _ _ i _ Hrun Hi1) as [_ Hr].
      rewrite (filter_not_elem_of (Release i)) by (apply Hr; simpl; lia).
      simpl. lia.
Qed.

End GateProperties.

Lemma gate_released_at_end_witness :
  length [Gate.settled; Gate.settled] = length [[of_string "a"]; [of_string "b"]].
Proof.
  exact (proj1 (gate_released_at_end 1 [[of_string "a"]; [of_string "b"]]
                  [Gate.Acquire 1; Gate.Release 1; Gate.Acquire 0; Gate.Release 0]
                  {| Gate.sem_value := 1; Gate.tasks := [Gate.settled; Gate.settled] |}
                  eq_refl)).
Defined.

Lemma gate_progress_witness :
  exists e st',
    Gate.step {| Gate.sem_value := 0; Gate.tasks := [Gate.waiting; Gate.in_flight] |} e
    = Some st'.
Proof.
  apply (gate_progress 1 [[]; []] [Gate.Acquire 1]).
  - apply Nat.lt_0_1.
  - reflexivity.
  - intros H. apply Forall_cons in H as [H _]. discriminate H.
Defined.

Lemma gate_serial_completes_witness :
  Gate.run (Gate.init 1 [[]; []; []]) (serial_schedule 0 3)
  = Some {| Gate.sem_value := 1; Gate.tasks := replicate 3 Gate.settled |}.
Proof. apply (gate_serial_completes 1 [[]; []; []]). apply Nat.lt_0_1. Defined.

Lemma task_runs_once_witness :
  (length (filter (fun e => e = Gate.Acquire 0%nat)
             [Gate.Acquire 0; Gate.Acquire 1; Gate.Release 0; Gate.Release 1]) <= 1)%nat.
Proof.
  exact (proj1 (task_runs_once
                  [Gate.Acquire 0; Gate.Acquire 1; Gate.Release 0; Gate.Release 1]
                  (Gate.init 2 [[]; []])
                  {| Gate.sem_value := 2; Gate.tasks := [Gate.settled; Gate.settled] |}
                  0%nat eq_refl)).
Defined.

(** * Properties of find_app_folders *)

(** Induction on directory trees. *)
Lemma dir_entry_nested_ind (P : dir_entry -> Prop) :
  (forall name, P (Other name)) ->
  (forall name, P (Directory name None)) ->
  (forall name entries, Forall P entries -> P (Directory name (Some entries))) ->
  forall e, P e.
Proof.
  intros Hother Hnone Hsome.
  fix IH 1. intros [name|name [entries|]].
  - apply Hother.
  - apply Hsome. induction entries as [|x entries IHentries]; constructor.
    + apply IH.
    + apply IHentries.
  - apply Hnone.
Qed.

Lemma find_in_entry_directory root_dir name entries :
  find_in_entry root_dir (Directory name (Some entries))
  = if endswith name dot_app then [path_join root_dir name]
    else flat_map (find_in_entry (path_join root_dir name)) entries.
Proof.
  cbn [find_in_entry]. destruct (endswith name dot_app); [done|].
  induction entries as [|e entries IH]; [done|]. cbn [flat_map]. by rewrite <- IH.
Qed.

Lemma endswith_suffix s suffix :
  endswith s suffix = true <-> exists pre, s = pre ++ suffix.
Proof.
  unfold endswith. rewrite startswith_prefix. split.
  - intros [post Hpost]. exists (reverse post).
    apply (inj reverse). by rewrite reverse_app, reverse_involutive.
  - intros [pre ->]. exists (reverse pre). by rewrite reverse_app.
Qed.

Lemma path_join_suffix a b : exists pre, path_join a b = pre ++ b.
Proof.
  unfold path_join. destruct (startswith b [slash]); [by exists []|].
  destruct (is_empty a || endswith a [slash]); [by exists a|].
  exists (a ++ [slash]). by rewrite <- app_assoc.
Qed.

Lemma endswith_path_join a b suffix :
  endswith b suffix = true -> endswith (path_join a b) suffix = true.
Proof.
  rewrite !endswith_suffix. intros [pre ->].
  destruct (path_join_suffix a (pre ++ suffix)) as [pre' ->].
  exists (pre' ++ pre). by rewrite app_assoc.
Qed.

Lemma find_in_entry_chain root_dir e p :
  p ∈ find_in_entry root_dir e ->
  exists dirs bundle,
    p = join_all root_dir (dirs ++ [bundle]) /\
    Forall (fun d => endswith d dot_app = false) dirs /\
    endswith bundle dot_app = true.
Proof.
  revert root_dir. induction e as [name|name|name entries IH] using dir_entry_nested_ind;
    intros root_dir.
  - by intros ?%elem_of_nil.
  - cbn [find_in_entry]. destruct (endswith name dot_app) eqn:Hname.
    + intros ->%list_elem_of_singleton. by exists [], name.
    + by intros ?%elem_of_nil.
  - rewrite find_in_entry_directory. destruct (endswith name dot_app) eqn:Hname.
    + intros ->%list_elem_of_singleton. by exists [], name.
    + rewrite list_elem_of_In, in_flat_map.
      intros (x & Hx%list_elem_of_In & Hp%list_elem_of_In).
      rewrite Forall_forall in IH.
      destruct (IH x Hx _ Hp) as (dirs & bundle & -> & Hdirs & Hbundle).
      exists (name :: dirs), bundle. split_and!; try done. by constructor.
Qed.

Lemma find_in_entry_chain_top root_dir listing p :
  p ∈ find_app_folders root_dir listing ->
  exists dirs bundle,
    p = join_all root_dir (dirs ++ [bundle]) /\
    Forall (fun d => endswith d dot_app = false) dirs /\
    endswith bundle dot_app = true.
Proof.
  destruct listing as [entries|]; [|by intros ?%elem_of_nil].
  cbn [find_app_folders]. rewrite list_elem_of_In, in_flat_map.
  intros (x & _ & Hp%list_elem_of_In). by eapply find_in_entry_chain.
Qed.

(** X22: [find_app_folders] never looks inside a bundle: every path it
    returns is reached from the root through directories whose names do
    not end in ".app", and ends with a directory whose name does. *)
Theorem find_app_folders_chain
    (root_dir : pystr) (listing : option (list dir_entry)) (p : pystr) :
  p ∈ find_app_folders root_dir listing ->
  exists dirs bundle,
    p = join_all root_dir (dirs ++ [bundle]) /\
    Forall (fun d => endswith d dot_app = false) dirs /\
    endswith bundle dot_app = true.
Proof. apply find_in_entry_chain_top. Qed.

(** X23: every path that [find_app_folders] returns ends in ".app", and
    a directory that cannot be read yields nothing. *)
Theorem find_app_folders_extension (root_dir : pystr) (listing : option (list dir_entry)) :
  Forall (fun p => endswith p dot_app = true) (find_app_folders root_dir listing) /\
  find_app_folders root_dir None = [].
Proof.
  split; [|done]. apply Forall_forall. intros p Hp.
  destruct (find_in_entry_chain_top root_dir listing p Hp)
    as (dirs & bundle & -> & _ & Hbundle).
  unfold join_all. rewrite foldl_snoc. by apply endswith_path_join.
Qed.

Example find_app_folders_applications :
  find_app_folders (of_string "/Applications") (Some applications_listing)
  = [of_string "/Applications/Utilities/Terminal.app";
     of_string "/Applications/Safari.app"].
Proof. reflexivity. Qed.

Lemma find_app_folders_chain_witness :
  exists dirs bundle,
    of_string "/Applications/Utilities/Terminal.app"
    = join_all (of_string "/Applications") (dirs ++ [bundle]) /\
    Forall (fun d => endswith d dot_app = false) dirs /\
    endswith bundle dot_app = true.
Proof.
  apply (find_app_folders_chain (of_string "/Applications") (Some applications_listing)).
  vm_compute. apply list_elem_of_here.
Defined.

(** * Properties of get_mdls_version and scrape_latest_version *)

Lemma lstrip_by_app p ws s :
  Forall (fun c => p c = true) ws -> lstrip_by p (ws ++ s) = lstrip_by p s.
Proof. induction 1 as [|c ws Hc _ IH]; [done|]. simpl. by rewrite Hc. Qed.

Lemma lstrip_by_keep p c s : p c = false -> lstrip_by p (c :: s) = c :: s.
Proof. simpl. by intros ->. Qed.

Lemma rstrip_by_snoc p s c :
  rstrip_by p (s ++ [c]) = if p c then rstrip_by p s else s ++ [c].
Proof.
  induction s as [|a s IH]; [done|].
  simpl. rewrite IH. destruct (p c); [done|]. by destruct s.
Qed.

Lemma rstrip_by_app p s ws :
  Forall (fun c => p c = true) ws -> rstrip_by p (s ++ ws) = rstrip_by p s.
Proof.
  induction ws as [|c ws IH] using rev_ind; [by rewrite app_nil_r|].
  intros H. apply Forall_app in H as [Hws Hc]. apply Forall_cons in Hc as [Hc _].
  by rewrite app_assoc, rstrip_by_snoc, Hc, IH.
Qed.

Lemma rstrip_by_cons_keep p c s :
  p c = false -> exists kept, rstrip_by p (c :: s) = c :: kept.
Proof.
  intros Hc. simpl. destruct (rstrip_by p s) as [|d kept]; [|by eexists].
  rewrite Hc. by eexists.
Qed.

Lemma lstrip_by_head p s :
  lstrip_by p s = [] \/ exists c t, lstrip_by p s = c :: t /\ p c = false.
Proof.
  induction s as [|c s IH]; [by left|].
  simpl. destruct (p c) eqn:Hc; [done|]. right. by exists c, s.
Qed.

Lemma rstrip_by_idem p s : rstrip_by p (rstrip_by p s) = rstrip_by p s.
Proof.
  induction s as [|c s IH]; [done|].
  simpl. destruct (rstrip_by p s) as [|d kept] eqn:Hr.
  - destruct (p c) eqn:Hc; [done|]. simpl. by rewrite Hc.
  - change (rstrip_by p (c :: d :: kept))
      with (match rstrip_by p (d :: kept) with
            | [] => if p c then [] else [c]
            | k => c :: k
            end).
    by rewrite IH.
Qed.

Lemma strip_by_idem p s : strip_by p (strip_by p s) = strip_by p s.
Proof.
  unfold strip_by.
  destruct (lstrip_by_head p s) as [->|(c & t & -> & Hc)]; [done|].
  destruct (rstrip_by_cons_keep p c t Hc) as [kept Hk].
  rewrite Hk, (lstrip_by_keep p c kept Hc), <- Hk. apply rstrip_by_idem.
Qed.

(** [s.replace(old, new)] after an occurrence has been matched: the rest
    of the occurrence is passed over. *)
Lemma replace_scan_skip old new w s :
  replace_scan old new (length w) (w ++ s) = replace_scan old new 0 s.
Proof.
  induction w as [|x w IH]; [done|]. simpl. apply IH.
Qed.

Lemma str_replace_prefix (old s : pystr) :
  old <> [] -> str_replace (old ++ s) old [] = str_replace s old [].
Proof.
  destruct old as [|c old]; [done|]. intros _. unfold str_replace.
  change ((c :: old) ++ s) with (c :: (old ++ s)). cbn [replace_scan].
  pose proof (startswith_app (c :: old) s) as Hsw. cbn [app] in Hsw. rewrite Hsw.
  rewrite <- (replace_scan_skip (c :: old) [] old s). cbn [app]. f_equal. simpl. lia.
Qed.

Lemma str_replace_absent (old new s : pystr) :
  str_contains s old = false -> str_replace s old new = s.
Proof.
  unfold str_replace. induction s as [|c s IH].
  - destruct old; [done|done].
  - cbn [str_contains]. intros [Hs Hrest]%orb_false_elim.
    cbn [replace_scan]. rewrite Hs. f_equal. by apply IH.
Qed.

Lemma str_replace_char (q : char) (s : pystr) :
  str_replace s [q] [] = List.filter (fun c => negb (c =? q)) s.
Proof.
  unfold str_replace. induction s as [|c s IH]; [done|].
  cbn [replace_scan List.filter].
  replace (startswith (c :: s) [q]) with (c =? q)
    by (simpl; destruct s; by rewrite andb_true_r).
  destruct (c =? q); simpl; by rewrite IH.
Qed.

Ltac unfold_get_mdls_version := unfold get_mdls_version.
Ltac unfold_strip := unfold strip.
Ltac unfold_scrape := unfold scrape_latest_version.

Section TextProperties.

Variable isspace_nonascii : char -> bool.

Local Abbreviation isspace := (isspace isspace_nonascii).
Local Abbreviation strip := (strip isspace_nonascii).
Local Abbreviation get_mdls_version := (get_mdls_version isspace_nonascii).
Local Abbreviation scan_cells := (scan_cells isspace_nonascii).
Local Abbreviation scrape_latest_version := (scrape_latest_version isspace_nonascii).

(** X24: the version [get_mdls_version] returns never contains a
    quotation mark; when the command fails it is the empty string. *)
Theorem get_mdls_version_no_quote (mdls_output : option pystr) :
  Forall (fun c => c <> quote) (get_mdls_version mdls_output) /\
  get_mdls_version None = [].
Proof.
  split; [|done]. destruct mdls_output as [text|]; [|constructor].
  unfold_get_mdls_version. rewrite str_replace_char.
  apply Forall_forall. intros c [_ Hc]%elem_of_filter_bool.
  apply negb_true_iff in Hc. by apply N.eqb_neq in Hc.
Qed.

Lemma mdls_label_absent (v : pystr) :
  quote ∉ v ->
  endswith v (of_string "kMDItemVersion = ") = false ->
  str_contains (v ++ [quote]) mdls_label = false.
Proof.
  intros Hq Hend. destruct (str_contains _ _) eqn:Hc; [exfalso|done].
  apply str_contains_infix in Hc as (pre & post & Heq).
  unfold mdls_label in Heq.
  destruct post as [|x post _] using rev_ind.
  - rewrite app_nil_r, app_assoc in Heq. apply app_inj_tail in Heq as [-> _].
    rewrite (proj2 (endswith_suffix _ _)) in Hend; [done|]. by eexists.
  - rewrite !app_assoc in Heq. apply app_inj_tail in Heq as [-> _].
    apply Hq. rewrite !elem_of_app. left. right. apply list_elem_of_here.
Qed.

(** X25: from a line of the form [kMDItemVersion = "v"], with any
    whitespace around it, [get_mdls_version] reads back [v] exactly,
    inner spaces included, for every [v] without a quotation mark that
    does not itself end in the label. *)
Theorem get_mdls_version_reads_line (v before after : pystr) :
  Forall (fun c => isspace c = true) before ->
  Forall (fun c => isspace c = true) after ->
  quote ∉ v ->
  endswith v (of_string "kMDItemVersion = ") = false ->
  get_mdls_version (Some (before ++ mdls_label ++ v ++ quote :: after)) = v.
Proof.
  intros Hbefore Hafter Hq Hend. unfold_get_mdls_version.
  assert (Hstrip : strip (before ++ mdls_label ++ v ++ quote :: after)
                   = mdls_label ++ v ++ [quote]).
  { unfold_strip. unfold strip_by. rewrite lstrip_by_app by done.
    change (mdls_label ++ v ++ quote :: after)
      with (107 :: (of_string "MDItemVersion = " ++ [quote]) ++ v ++ quote :: after).
    rewrite lstrip_by_keep by done.
    change (107 :: (of_string "MDItemVersion = " ++ [quote]) ++ v ++ quote :: after)
      with (mdls_label ++ v ++ [quote] ++ after).
    rewrite !app_assoc, rstrip_by_app by done.
    by rewrite rstrip_by_snoc. }
  rewrite Hstrip, str_replace_prefix by done.
  rewrite (str_replace_absent mdls_label [] (v ++ [quote]))
    by by apply mdls_label_absent.
  rewrite str_replace_char, List.filter_app. simpl. rewrite app_nil_r.
  apply forallb_filter_id, forallb_forall. intros c Hc.
  apply negb_true_iff, N.eqb_neq. intros ->. by apply Hq, list_elem_of_In.
Qed.

Lemma scan_cells_stripped label cells :
  strip (scan_cells label cells) = scan_cells label cells.
Proof.
  induction cells as [|[text next_td] cells IH]; [done|].
  simpl. case_bool_decide; [|done].
  destruct next_td as [next_text|]; [|done]. apply strip_by_idem.
Qed.

(** X26: the version [scrape_latest_version] returns has no whitespace
    at either end, and it is empty when the request fails or the status
    is 400 or more. *)
Theorem scrape_latest_version_stripped (r : response) (label : pystr) :
  strip (scrape_latest_version r label) = scrape_latest_version r label /\
  scrape_latest_version request_failed label = [] /\
  (forall status cells,
     400 <= status -> scrape_latest_version (http_response status cells) label = []).
Proof.
  split_and!; [|done|].
  - destruct r as [|status cells]; [done|]. unfold_scrape.
    destruct (400 <=? status); [done|]. apply scan_cells_stripped.
  - intros status cells Hs. unfold_scrape. by rewrite (proj2 (N.leb_le 400 status)).
Qed.

(** X27: a non-empty answer of [scrape_latest_version] comes from a
    response with a status below 400 in which some cell, stripped, is
    the label and has a following cell. *)
Theorem scrape_latest_version_found (r : response) (label : pystr) :
  scrape_latest_version r label <> [] ->
  exists status cells,
    r = http_response status cells /\ status < 400 /\
    Exists (fun cell => strip cell.1 = label /\
                        exists next_text, cell.2 = Some next_text /\
                          scrape_latest_version r label = strip next_text) cells.
Proof.
  destruct r as [|status cells]; [done|]. unfold_scrape.
  destruct (N.leb_spec 400 status); [done|]. intros Hne.
  exists status, cells. split_and!; try done.
  induction cells as [|[text next_td] cells IH]; [done|].
  simpl in *. case_bool_decide as Hlabel.
  - destruct next_td as [next_text|].
    + apply Exists_cons_hd. split; [done|]. by exists next_text.
    + apply Exists_cons_tl. by apply IH.
  - apply Exists_cons_tl. by apply IH.
Qed.

End TextProperties.

Lemma get_mdls_version_reads_line_witness :
  get_mdls_version (fun _ => false)
    (Some (of_string "kMDItemVersion = " ++ [quote] ++ of_string "12.3 beta"
           ++ [quote; 10]))
  = of_string "12.3 beta".
Proof.
  apply (get_mdls_version_reads_line (fun _ => false) (of_string "12.3 beta") [] [10]).
  - constructor.
  - repeat constructor.
  - vm_compute. intros H. repeat (apply elem_of_cons in H as [H|H]; [discriminate H|]).
    by apply elem_of_nil in H.
  - reflexivity.
Defined.

Lemma scrape_latest_version_found_witness :
  exists status cells,
    http_response 200 [(of_string "Version String:", Some (of_string " 1.1.0 "))]
    = http_response status cells /\ status < 400 /\
    Exists (fun cell =>
              strip (fun _ => false) cell.1 = of_string "Version String:" /\
              exists next_text, cell.2 = Some next_text /\
                scrape_latest_version (fun _ => false)
                  (http_response 200
                     [(of_string "Version String:", Some (of_string " 1.1.0 "))])
                  (of_string "Version String:")
                = strip (fun _ => false) next_text) cells.
Proof.
  apply (scrape_latest_version_found (fun _ => false)).
  vm_compute. discriminate.
Defined.

(** * Further properties of the sort and of the lookup address *)

Lemma str_le_refl k : str_le k k = true.
Proof. induction k as [|c k IH]; [done|]. simpl. by rewrite N.eqb_refl. Qed.

Lemma filter_insert_by_key {A} (k : pystr) (kx : pystr * A) (l : list (pystr * A)) :
  filter (fun p => p.1 = k) (insert_by_key kx l)
  = filter (fun p => p.1 = k) (kx :: l).
Proof.
  induction l as [|ky l IH]; [done|].
  simpl. destruct (str_le kx.1 ky.1) eqn:Hle; [done|].
  rewrite filter_cons, IH, !filter_cons.
  destruct (decide (ky.1 = k)) as [Hy|?], (decide (kx.1 = k)) as [Hx|?]; try done.
  rewrite Hx, Hy, str_le_refl in Hle. done.
Qed.

Lemma filter_stable_sort {A} (k : pystr) (l : list (pystr * A)) :
  filter (fun p => p.1 = k) (stable_sort l) = filter (fun p => p.1 = k) l.
Proof.
  induction l as [|kx l IH]; [done|].
  simpl. by rewrite filter_insert_by_key, !filter_cons, IH.
Qed.

Ltac unfold_with_key := unfold with_key.

Section SortProperties.

Variable lower : pystr -> pystr.

Local Abbreviation sort_key := (sort_key lower).
Local Abbreviation sort_by_name := (sort_by_name lower).
Local Abbreviation with_key := (with_key lower).

Lemma with_key_keyed (k : pystr) (keyed : list (pystr * list pystr)) :
  Forall (fun p => sort_key p.2 = Some p.1) keyed ->
  filter (fun x => sort_key x = Some k) (keyed.*2)
  = (filter (fun p => p.1 = k) keyed).*2.
Proof.
  induction 1 as [|p keyed Hp _ IH]; [done|].
  rewrite fmap_cons, !filter_cons, IH. rewrite Hp.
  destruct (decide (p.1 = k)) as [->|Hne].
  - by rewrite decide_True.
  - rewrite decide_False; [done|]. by intros [= ?].
Qed.

(** X28: the sort by name is stable and loses nothing: for every key,
    the entries with that lower-cased name are the same before and
    after the sort, in the same order. *)
Theorem sort_by_name_stable (app_data sorted : list (list pystr)) (k : pystr) :
  sort_by_name app_data = Some sorted ->
  with_key k sorted = with_key k app_data.
Proof.
  unfold_sort_by_name.
  destruct (mapM _ app_data) as [keyed|] eqn:Hk; [|done]. simpl. intros [= <-].
  destruct (decorate_keys lower _ _ Hk) as [Hsnd Hkeys].
  unfold_with_key. rewrite <- Hsnd.
  rewrite (with_key_keyed k keyed Hkeys).
  rewrite (with_key_keyed k (stable_sort keyed)) by by rewrite stable_sort_perm.
  by rewrite filter_stable_sort.
Qed.

End SortProperties.

Lemma sort_by_name_stable_witness :
  with_key ascii_lower (of_string "foo")
    [[of_string "Bar"; of_string "com.bar"; of_string "2"];
     [of_string "Foo"; of_string "com.foo"; of_string "1.0"];
     [of_string "foo"; of_string "org.foo"; of_string "3.1"]]
  = with_key ascii_lower (of_string "foo")
      [[of_string "Foo"; of_string "com.foo"; of_string "1.0"];
       [of_string "Bar"; of_string "com.bar"; of_string "2"];
       [of_string "foo"; of_string "org.foo"; of_string "3.1"]].
Proof.
  apply (sort_by_name_stable ascii_lower
           [[of_string "Foo"; of_string "com.foo"; of_string "1.0"];
            [of_string "Bar"; of_string "com.bar"; of_string "2"];
            [of_string "foo"; of_string "org.foo"; of_string "3.1"]]).
  vm_compute. reflexivity.
Defined.

(** X29: two lookups use the same address exactly when their corrected
    identifiers are the same: the identifier can be read back from the
    address. *)
Theorem macupdater_url_injective
    (identifier_mappings : gmap (list N) (list N)) (a b : pystr) :
  macupdater_url identifier_mappings a = macupdater_url identifier_mappings b <->
  default a (identifier_mappings !! a) = default b (identifier_mappings !! b).
Proof.
  unfold macupdater_url. split; [|by intros ->].
  intros H. apply app_inv_head in H. by apply app_inv_tail in H.
Qed.
